(** * Command routing pipeline of zumygo

    A shallow embedding of the command pipeline of the bot:
    - [libs/commands.go]: [NewCommands], [ExtractPrefix], [HasCommand];
    - [libs/message.go]: [SerializeMessage] (command/args/owner extraction);
    - [handlers/message.go]: [getCachedRegex] and [ExecuteCommand].

    Go strings are modelled as [string] (byte strings); the Go [strings],
    [unicode/utf8] and [regexp] functions the pipeline calls are written
    out below, on the UTF-8 decoding of the text where Go decodes it.
    Side effects of [ExecuteCommand] (replies, reactions, hooks, handler
    runs) are recorded as a trace of events. *)

From Stdlib Require Import Ascii String List Bool Arith ZArith Lia Sorted Permutation.
From stdpp Require Import base gmap strings.
Import ListNotations.

Local Open Scope bool_scope.

(* ------------------------------------------------------------------ *)
(** ** Go [strings] package, on byte strings *)

Module GoStrings.

Definition sapp (a b : string) : string := String.append a b.

(** [unicode/utf8] *)
Definition bval (c : ascii) : Z := Z.of_nat (nat_of_ascii c).

Definition byte_in (c : ascii) (lo hi : Z) : bool := Z.leb lo (bval c) && Z.leb (bval c) hi.

Definition cont (c : ascii) : bool := byte_in c 128 191.

(** [utf8.DecodeRune]: the code point at the head of [s] and its width;
    a byte that does not start a valid encoding reads as U+FFFD of width 1. *)
Definition decode (s : list ascii) : option (Z * nat) :=
  match s with
  | [] => None
  | b0 :: t =>
      let v0 := bval b0 in
      let bad := Some (65533%Z, 1) in
      if Z.ltb v0 128 then Some (v0, 1)
      else if byte_in b0 194 223 then
        match t with
        | b1 :: _ => if cont b1 then Some (((v0 - 192) * 64 + (bval b1 - 128))%Z, 2) else bad
        | [] => bad
        end
      else if byte_in b0 224 239 then
        let lo1 := if Z.eqb v0 224 then 160%Z else 128%Z in
        let hi1 := if Z.eqb v0 237 then 159%Z else 191%Z in
        match t with
        | b1 :: b2 :: _ =>
            if byte_in b1 lo1 hi1 && cont b2
            then Some ((((v0 - 224) * 64 + (bval b1 - 128)) * 64 + (bval b2 - 128))%Z, 3)
            else bad
        | _ => bad
        end
      else if byte_in b0 240 244 then
        let lo1 := if Z.eqb v0 240 then 144%Z else 128%Z in
        let hi1 := if Z.eqb v0 244 then 143%Z else 191%Z in
        match t with
        | b1 :: b2 :: b3 :: _ =>
            if byte_in b1 lo1 hi1 && cont b2 && cont b3
            then Some (((((v0 - 240) * 64 + (bval b1 - 128)) * 64 + (bval b2 - 128)) * 64
                        + (bval b3 - 128))%Z, 4)
            else bad
        | _ => bad
        end
      else bad
  end.


(** [strings.HasPrefix(s, p)] *)
Definition HasPrefix (s p : string) : bool := String.prefix p s.

(** [strings.TrimPrefix(s, p)] *)
Definition TrimPrefix (s p : string) : string :=
  if HasPrefix s p then substring (String.length p) (String.length s - String.length p) s
  else s.

(** [strings.Contains(s, sub)]: [sub] occurs at some index of [s]. *)
Fixpoint Contains (s sub : string) : bool :=
  String.prefix sub s ||
  match s with
  | EmptyString => false
  | String _ s' => Contains s' sub
  end.

(** [strings.ContainsAny(s, chars)] *)
Fixpoint ContainsAny (s chars : string) : bool :=
  match s with
  | EmptyString => false
  | String c s' => Contains chars (String c EmptyString) || ContainsAny s' chars
  end.

Fixpoint trim_left_by (p : ascii -> bool) (s : string) : string :=
  match s with
  | EmptyString => EmptyString
  | String c s' => if p c then trim_left_by p s' else s
  end.

Fixpoint rev_string (s : string) : string :=
  match s with
  | EmptyString => EmptyString
  | String c s' => sapp (rev_string s') (String c EmptyString)
  end.

Definition trim_right_by (p : ascii -> bool) (s : string) : string :=
  rev_string (trim_left_by p (rev_string s)).

(** [unicode.IsSpace], by the UTF-8 encodings of the white space
    characters: U+0009-U+000D, U+0020, U+0085, U+00A0, U+1680,
    U+2000-U+200A, U+2028, U+2029, U+202F, U+205F and U+3000.  A character
    at the head of a text is white space exactly when the text starts with
    one of these encodings (a byte that is not valid UTF-8 reads as U+FFFD,
    which is not white space). *)
Definition space_encodings : list (list ascii) :=
  map (map ascii_of_nat)
    [[9]; [10]; [11]; [12]; [13]; [32]; [194; 133]; [194; 160]; [225; 154; 128];
     [226; 128; 128]; [226; 128; 129]; [226; 128; 130]; [226; 128; 131]; [226; 128; 132];
     [226; 128; 133]; [226; 128; 134]; [226; 128; 135]; [226; 128; 136]; [226; 128; 137];
     [226; 128; 138]; [226; 128; 168]; [226; 128; 169]; [226; 128; 175]; [226; 129; 159];
     [227; 128; 128]].

Fixpoint lprefix (e l : list ascii) : bool :=
  match e, l with
  | [], _ => true
  | c :: e', d :: l' => Ascii.eqb c d && lprefix e' l'
  | _ :: _, [] => false
  end.

(** Drop characters at the head of [l] while their encoding is one of [E]
    ([strings.TrimLeftFunc]). *)
Fixpoint trim_left_enc (E : list (list ascii)) (fuel : nat) (l : list ascii) : list ascii :=
  match fuel with
  | 0 => l
  | S f =>
      match List.find (fun e => lprefix e l) E with
      | Some e => trim_left_enc E f (skipn (List.length e) l)
      | None => l
      end
  end.

(** [strings.TrimRightFunc]: the same from the end, on the reversed text
    with the reversed encodings. *)
Definition trim_right_enc (E : list (list ascii)) (l : list ascii) : list ascii :=
  rev (trim_left_enc (map (@rev ascii) E) (List.length l) (rev l)).

(** [strings.TrimSpace(s)] *)
Definition TrimSpace (s : string) : string :=
  let l := list_ascii_of_string s in
  string_of_list_ascii
    (trim_right_enc space_encodings (trim_left_enc space_encodings (List.length l) l)).

(** [strings.Trim(s, " ")] *)
Definition TrimBlank (s : string) : string :=
  trim_right_by (fun c => Ascii.eqb c " "%char) (trim_left_by (fun c => Ascii.eqb c " "%char) s).

(** [unicode.ToLower].  The table covers the upper case and title case
    letters of Basic Latin, Latin-1, Latin Extended-A, the regular pairs of
    Latin Extended-B, Latin Extended Additional, Greek (without Greek
    Extended), Cyrillic, Armenian, Georgian, Cherokee, Glagolitic, Coptic,
    the letterlike symbols Ohm, Kelvin and Angstrom, Roman numerals, circled
    and fullwidth Latin letters, and Deseret; the remaining upper case
    letters of Unicode (the irregular ones of Latin Extended-B, Greek
    Extended, Latin Extended-C/D/E, Adlam, ...) are left unchanged here. *)
Definition in_rng (r lo hi : Z) : bool := Z.leb lo r && Z.leb r hi.

Definition unicode_ToLower (r : Z) : Z :=
  if in_rng r 65 90 then (r + 32)%Z
  else if Z.ltb r 192 then r
  else if in_rng r 192 214 || in_rng r 216 222 then (r + 32)%Z
  else if Z.eqb r 304 then 105%Z
  else if Z.eqb r 376 then 255%Z
  else if (in_rng r 256 303 || in_rng r 306 311 || in_rng r 330 375) && Z.even r then (r + 1)%Z
  else if (in_rng r 313 328 || in_rng r 377 382) && Z.odd r then (r + 1)%Z
  else if Z.eqb r 452 || Z.eqb r 455 || Z.eqb r 458 || Z.eqb r 497 then (r + 2)%Z
  else if Z.eqb r 453 || Z.eqb r 456 || Z.eqb r 459 || Z.eqb r 498 || Z.eqb r 500 then (r + 1)%Z
  else if in_rng r 461 476 && Z.odd r then (r + 1)%Z
  else if (in_rng r 478 495 || in_rng r 504 543 || in_rng r 546 563 || in_rng r 582 591)
          && Z.even r then (r + 1)%Z
  else if Z.eqb r 902 then 940%Z
  else if in_rng r 904 906 then (r + 37)%Z
  else if Z.eqb r 908 then 972%Z
  else if in_rng r 910 911 then (r + 63)%Z
  else if in_rng r 913 929 || in_rng r 931 939 then (r + 32)%Z
  else if in_rng r 984 1007 && Z.even r then (r + 1)%Z
  else if in_rng r 1024 1039 then (r + 80)%Z
  else if in_rng r 1040 1071 then (r + 32)%Z
  else if (in_rng r 1120 1153 || in_rng r 1162 1215 || in_rng r 1232 1327) && Z.even r then (r + 1)%Z
  else if Z.eqb r 1216 then 1231%Z
  else if in_rng r 1217 1230 && Z.odd r then (r + 1)%Z
  else if in_rng r 1329 1366 then (r + 48)%Z
  else if in_rng r 4256 4293 || Z.eqb r 4295 || Z.eqb r 4301 then (r + 7264)%Z
  else if in_rng r 5024 5103 then (r + 38864)%Z
  else if in_rng r 5104 5109 then (r + 8)%Z
  else if (in_rng r 7680 7829 || in_rng r 7840 7935) && Z.even r then (r + 1)%Z
  else if Z.eqb r 7838 then 223%Z
  else if Z.eqb r 8486 then 969%Z
  else if Z.eqb r 8490 then 107%Z
  else if Z.eqb r 8491 then 229%Z
  else if in_rng r 8544 8559 then (r + 16)%Z
  else if in_rng r 9398 9423 then (r + 26)%Z
  else if in_rng r 11264 11310 then (r + 48)%Z
  else if in_rng r 11392 11491 && Z.even r then (r + 1)%Z
  else if in_rng r 65313 65338 then (r + 32)%Z
  else if in_rng r 66560 66599 then (r + 40)%Z
  else r.

(** [utf8.EncodeRune]; a surrogate or a value above U+10FFFF is written as U+FFFD. *)
Definition encode (r : Z) : list ascii :=
  let b x := ascii_of_nat (Z.to_nat x) in
  let r := if in_rng r 55296 57343 || Z.ltb 1114111 r || Z.ltb r 0 then 65533%Z else r in
  if Z.ltb r 128 then [b r]
  else if Z.ltb r 2048 then [b (192 + r / 64); b (128 + r mod 64)]%Z
  else if Z.ltb r 65536 then [b (224 + r / 4096); b (128 + (r / 64) mod 64); b (128 + r mod 64)]%Z
  else [b (240 + r / 262144); b (128 + (r / 4096) mod 64); b (128 + (r / 64) mod 64);
        b (128 + r mod 64)]%Z.

(** [strings.Map(unicode.ToLower, s)]: each character of [s] (a byte that is
    not valid UTF-8 reads as U+FFFD) replaced by the encoding of its lower
    case. *)
Fixpoint map_lower (fuel : nat) (l : list ascii) : list ascii :=
  match fuel with
  | 0 => []
  | S f =>
      match decode l with
      | Some (r, w) => encode (unicode_ToLower r) ++ map_lower f (skipn w l)
      | None => []
      end
  end.

(** [strings.ToLower]: an ASCII text has its letters [A-Z] lowered byte by
    byte; any other text goes through [strings.Map]. *)
Definition lower_char (c : ascii) : ascii :=
  let n := nat_of_ascii c in
  if (65 <=? n) && (n <=? 90) then ascii_of_nat (n + 32) else c.

Definition ToLower (s : string) : string :=
  let l := list_ascii_of_string s in
  if forallb (fun c => nat_of_ascii c <? 128) l then string_of_list_ascii (map lower_char l)
  else string_of_list_ascii (map_lower (List.length l) l).

(** [strings.Split(s, sep)] for a one-byte separator: the pieces between
    separators, [n+1] pieces for [n] separators ([Split("", " ") = [""]]). *)
Fixpoint Split (s : string) (sep : ascii) : list string :=
  match s with
  | EmptyString => [EmptyString]
  | String c s' =>
      if Ascii.eqb c sep then EmptyString :: Split s' sep
      else match Split s' sep with
           | [] => [String c EmptyString]
           | w :: ws => String c w :: ws
           end
  end.

(** [strings.Join(parts, sep)] *)
Fixpoint Join (parts : list string) (sep : string) : string :=
  match parts with
  | [] => EmptyString
  | [w] => w
  | w :: ws => sapp w (sapp sep (Join ws sep))
  end.

(** [regexp.MustCompile(`\D+`).ReplaceAllString(v, "")]: keep the digits. *)
Definition is_digit (c : ascii) : bool :=
  let n := nat_of_ascii c in (48 <=? n) && (n <=? 57).

Fixpoint strip_non_digits (s : string) : string :=
  match s with
  | EmptyString => EmptyString
  | String c s' => if is_digit c then String c (strip_non_digits s') else strip_non_digits s'
  end.

End GoStrings.
Import GoStrings.

(* ------------------------------------------------------------------ *)
(** ** Go [regexp]: [regexp/syntax.Parse] with the [Perl] flags, and matching

    The parser follows [regexp/syntax/parse.go]: a concatenation is built
    on a stack, and a repetition operator applies to the item on top of it;
    [(?flags)], [(?flags:re)], [(?P<name>re)] and [(?<name>re)] groups;
    escapes ([parseEscape]), Perl classes [\d \s \w], POSIX classes
    [[:alpha:]], counted repetition [{n}], [{n,}], [{n,m}] (a [{] that does
    not start one is a literal).  Matching is on the UTF-8 decoding of the
    text ([utf8.DecodeRune]): [.] and classes read one character, and
    a match starts at a character boundary.

    Not modelled: the Unicode classes [\pN], [\p{Greek}] (read as a
    compile error here); case folding beyond the ASCII letters and the two
    characters that fold with them, U+017F and U+212A; the limits on the
    size and nesting depth of an expression.  A byte of a literal that is
    not valid UTF-8 stands for itself (Go rejects such a pattern), and a
    literal is matched byte by byte, so a U+FFFD of the pattern does not
    match an invalid byte of the text as it does in Go. *)

Module Regexp.

(** Parser flags: [(?i)] case folding, [(?m)] multi-line [^] and [$],
    [(?s)] [.] matches [\n].  [(?U)] only swaps greediness, which does not
    change whether there is a match; it is accepted and dropped. *)
Record flags := mkFlags { FoldCase : bool; MultiLine : bool; DotNL : bool }.

Definition default_flags : flags := mkFlags false false false.

Inductive re : Type :=
  | Eps : re
  | Chr : ascii -> re                                (** one byte of a literal *)
  | Cls : bool -> list (bool * list (Z * Z)) -> re   (** negated?, union of (negated?, code point ranges) *)
  | Cat : re -> re -> re
  | Alt : re -> re -> re
  | Star : re -> re
  | Repeat : nat -> option nat -> re -> re           (** [{n,m}]; [None]: no upper bound *)
  | Bol : re                                         (** [^], [\A]: beginning of text *)
  | Eol : re                                         (** [$], [\z]: end of text *)
  | BolLine : re                                     (** [(?m)^] *)
  | EolLine : re                                     (** [(?m)$] *)
  | WordB : bool -> re.                              (** [\b] (true), [\B] (false) *)

Definition ceq (c : ascii) (d : ascii) : bool := Ascii.eqb c d.

Definition is_alnum (c : ascii) : bool := byte_in c 48 57 || byte_in c 65 90 || byte_in c 97 122.

Definition is_word_char (c : ascii) : bool := is_alnum c || ceq c "_"%char.

(** Characters that [regexp.QuoteMeta] escapes: [\.+*?()|[]{}^$]. *)
Definition special_chars : string := "\.+*?()|[]{}^$".

Definition is_special (c : ascii) : bool := Contains special_chars (String c EmptyString).

(** [regexp.QuoteMeta] *)
Fixpoint QuoteMeta (s : string) : string :=
  match s with
  | EmptyString => EmptyString
  | String c s' =>
      if is_special c then String "\"%char (String c (QuoteMeta s'))
      else String c (QuoteMeta s')
  end.

(** *** Character classes *)

(** Case folding of a range ([appendFoldedRange]) for the ASCII letters,
    U+017F (folds with [s]) and U+212A (folds with [k]). *)
Definition fold_range (r : Z * Z) : list (Z * Z) :=
  let '(lo, hi) := r in
  let inr x := Z.leb lo x && Z.leb x hi in
  let up := if Z.leb (Z.max lo 65) (Z.min hi 90) then [(Z.max lo 65 + 32, Z.min hi 90 + 32)%Z] else [] in
  let low := if Z.leb (Z.max lo 97) (Z.min hi 122) then [(Z.max lo 97 - 32, Z.min hi 122 - 32)%Z] else [] in
  let k := if inr 75%Z || inr 107%Z then [(8490, 8490)%Z] else [] in
  let s := if inr 83%Z || inr 115%Z then [(383, 383)%Z] else [] in
  let k' := if inr 8490%Z then [(75, 75); (107, 107)]%Z else [] in
  let s' := if inr 383%Z then [(83, 83); (115, 115)]%Z else [] in
  (lo, hi) :: up ++ low ++ k ++ s ++ k' ++ s'.

Definition fold_if (fl : flags) (rs : list (Z * Z)) : list (Z * Z) :=
  if FoldCase fl then flat_map fold_range rs else rs.

Definition has_fold (r : Z) : bool :=
  (Z.leb 65 r && Z.leb r 90) || (Z.leb 97 r && Z.leb r 122) || Z.eqb r 383 || Z.eqb r 8490.

Definition digit_rs : list (Z * Z) := [(48, 57)]%Z.
Definition space_rs : list (Z * Z) := [(9, 10); (12, 13); (32, 32)]%Z.
Definition word_rs : list (Z * Z) := [(48, 57); (65, 90); (95, 95); (97, 122)]%Z.

(** [perlGroup]: [\d \D \s \S \w \W] as (negated?, ranges). *)
Definition perl_class (c : ascii) : option (bool * list (Z * Z)) :=
  if ceq c "d"%char then Some (false, digit_rs)
  else if ceq c "D"%char then Some (true, digit_rs)
  else if ceq c "s"%char then Some (false, space_rs)
  else if ceq c "S"%char then Some (true, space_rs)
  else if ceq c "w"%char then Some (false, word_rs)
  else if ceq c "W"%char then Some (true, word_rs)
  else None.

(** [posixGroup], by the name between [[:] and [:]]. *)
Definition posix_ranges (name : string) : option (list (Z * Z)) :=
  if String.eqb name "alnum" then Some [(48, 57); (65, 90); (97, 122)]%Z
  else if String.eqb name "alpha" then Some [(65, 90); (97, 122)]%Z
  else if String.eqb name "ascii" then Some [(0, 127)]%Z
  else if String.eqb name "blank" then Some [(9, 9); (32, 32)]%Z
  else if String.eqb name "cntrl" then Some [(0, 31); (127, 127)]%Z
  else if String.eqb name "digit" then Some [(48, 57)]%Z
  else if String.eqb name "graph" then Some [(33, 126)]%Z
  else if String.eqb name "lower" then Some [(97, 122)]%Z
  else if String.eqb name "print" then Some [(32, 126)]%Z
  else if String.eqb name "punct" then Some [(33, 47); (58, 64); (91, 96); (123, 126)]%Z
  else if String.eqb name "space" then Some [(9, 13); (32, 32)]%Z
  else if String.eqb name "upper" then Some [(65, 90)]%Z
  else if String.eqb name "word" then Some [(48, 57); (65, 90); (95, 95); (97, 122)]%Z
  else if String.eqb name "xdigit" then Some [(48, 57); (65, 70); (97, 102)]%Z
  else None.

Definition posix_class (body : list ascii) : option (bool * list (Z * Z)) :=
  match body with
  | c :: rest =>
      if ceq c "^"%char then option_map (pair true) (posix_ranges (string_of_list_ascii rest))
      else option_map (pair false) (posix_ranges (string_of_list_ascii body))
  | [] => None
  end.

(** The text up to the first [:]] and the text after it. *)
Fixpoint split_colon_bracket (l : list ascii) : option (list ascii * list ascii) :=
  match l with
  | [] => None
  | c :: t =>
      match t with
      | d :: u => if ceq c ":"%char && ceq d "]"%char then Some ([], u) else
                  match split_colon_bracket t with
                  | Some (a, b) => Some (c :: a, b)
                  | None => None
                  end
      | [] => None
      end
  end.

(** *** Escapes *)

Definition odigit (c : ascii) : bool := byte_in c 48 55.

Definition hexval (c : ascii) : option Z :=
  if byte_in c 48 57 then Some (bval c - 48)%Z
  else if byte_in c 65 70 then Some (bval c - 55)%Z
  else if byte_in c 97 102 then Some (bval c - 87)%Z
  else None.

(** Up to [k] more octal digits. *)
Fixpoint octal (acc : Z) (t : list ascii) (k : nat) : option (Z * list ascii) :=
  match k with
  | 0 => Some (acc, t)
  | S k' =>
      match t with
      | d :: u => if odigit d then octal (acc * 8 + (bval d - 48))%Z u k' else Some (acc, t)
      | [] => Some (acc, t)
      end
  end.

(** [\x{...}]: at least one hex digit, at most U+10FFFF. *)
Fixpoint hex_braced (l : list ascii) (acc : Z) (n : nat) : option (Z * list ascii) :=
  match l with
  | [] => None
  | c :: t =>
      if ceq c "}"%char then (if Nat.eqb n 0 then None else Some (acc, t))
      else match hexval c with
           | Some v => let acc' := (acc * 16 + v)%Z in
                       if Z.ltb 1114111 acc' then None else hex_braced t acc' (S n)
           | None => None
           end
  end.

(** [parseEscape], on the text after the backslash. *)
Definition p_escape (s : list ascii) : option (Z * list ascii) :=
  match s with
  | [] => None
  | c :: t =>
      if Z.ltb (bval c) 128 && negb (is_alnum c) then Some (bval c, t)
      else if byte_in c 49 55 then
        match t with
        | d :: _ => if odigit d then octal (bval c - 48)%Z t 2 else None
        | [] => None
        end
      else if ceq c "0"%char then octal 0%Z t 2
      else if ceq c "x"%char then
        match t with
        | [] => None
        | d :: u =>
            if ceq d "{"%char then hex_braced u 0%Z 0
            else match hexval d, u with
                 | Some x, e :: u' => match hexval e with
                                      | Some y => Some ((x * 16 + y)%Z, u')
                                      | None => None
                                      end
                 | _, _ => None
                 end
        end
      else if ceq c "a"%char then Some (7%Z, t)
      else if ceq c "f"%char then Some (12%Z, t)
      else if ceq c "n"%char then Some (10%Z, t)
      else if ceq c "r"%char then Some (13%Z, t)
      else if ceq c "t"%char then Some (9%Z, t)
      else if ceq c "v"%char then Some (11%Z, t)
      else None
  end.

(** *** Literals *)

Fixpoint bytes_re (bs : list ascii) : re :=
  match bs with
  | [] => Eps
  | [b] => Chr b
  | b :: bs' => Cat (Chr b) (bytes_re bs')
  end.

(** The literal character [r], written with the bytes [bytes]. *)
Definition lit_rune (fl : flags) (r : Z) (bytes : list ascii) : re :=
  if FoldCase fl && has_fold r then Cls false [(false, fold_range (r, r))] else bytes_re bytes.

(** A character given by an escape. *)
Definition esc_lit (fl : flags) (r : Z) : re :=
  if Z.ltb r 128 then lit_rune fl r [ascii_of_nat (Z.to_nat r)]
  else if FoldCase fl && has_fold r then Cls false [(false, fold_range (r, r))]
  else Cls false [(false, [(r, r)])].

(** A literal character of the pattern text: an ASCII byte, or the bytes
    of one UTF-8 encoded character. *)
Definition p_raw (fl : flags) (s : list ascii) : re * list ascii :=
  match s with
  | [] => (Eps, [])
  | c :: t =>
      if Z.ltb (bval c) 128 then (lit_rune fl (bval c) [c], t)
      else match decode s with
           | Some (r, w) => if Nat.leb 2 w then (lit_rune fl r (firstn w s), skipn w s) else (Chr c, t)
           | None => (Chr c, t)
           end
  end.

(** A character of the pattern inside a class: escape or UTF-8 character. *)
Definition p_class_char (s : list ascii) : option (Z * list ascii) :=
  match s with
  | [] => None
  | c :: t =>
      if ceq c "\"%char then p_escape t
      else match decode s with
           | Some (r, w) => if Z.ltb (bval c) 128 || Nat.leb 2 w then Some (r, skipn w s) else None
           | None => None
           end
  end.

(** [\Q...\E]: the text up to the first [\E]. *)
Fixpoint cut_E (l : list ascii) : list ascii * list ascii :=
  match l with
  | [] => ([], [])
  | c :: t =>
      if ceq c "\"%char then
        match t with
        | d :: u => if ceq d "E"%char then ([], u) else let '(a, b) := cut_E t in (c :: a, b)
        | [] => ([c], [])
        end
      else let '(a, b) := cut_E t in (c :: a, b)
  end.

(** The literal characters of a text, in order. *)
Fixpoint lits_of (fuel : nat) (fl : flags) (l : list ascii) : option (list re) :=
  match fuel with
  | 0 => Some []
  | S f =>
      match l with
      | [] => Some []
      | c :: t =>
          match decode l with
          | Some (r, w) =>
              if Z.ltb (bval c) 128 || Nat.leb 2 w then
                option_map (cons (lit_rune fl r (firstn w l))) (lits_of f fl (skipn w l))
              else None
          | None => None
          end
      end
  end.

(** A backslash outside a class, on the text after it: the items it pushes. *)
Definition p_backslash (fl : flags) (t : list ascii) : option (list re * list ascii) :=
  match t with
  | [] => None
  | d :: u =>
      if ceq d "A"%char then Some ([Bol], u)
      else if ceq d "b"%char then Some ([WordB true], u)
      else if ceq d "B"%char then Some ([WordB false], u)
      else if ceq d "C"%char then None
      else if ceq d "Q"%char then
        let '(lit, rest) := cut_E u in
        match lits_of (List.length lit) fl lit with
        | Some items => Some (items, rest)
        | None => None
        end
      else if ceq d "z"%char then Some ([Eol], u)
      else if ceq d "p"%char || ceq d "P"%char then None
      else match perl_class d with
           | Some (n, rs) => Some ([Cls false [(n, fold_if fl rs)]], u)
           | None => match p_escape t with
                     | Some (r, u') => Some ([esc_lit fl r], u')
                     | None => None
                     end
           end
  end.

Definition cons_item {A} (x : A) (r : option (list A * list ascii)) : option (list A * list ascii) :=
  match r with
  | Some (xs, rest) => Some (x :: xs, rest)
  | None => None
  end.

(** [parseClass], after the [[] and an optional [^]: the items up to the
    closing [\]]. *)
Fixpoint p_class_items (fuel : nat) (fl : flags) (first : bool) (s : list ascii)
  : option (list (bool * list (Z * Z)) * list ascii) :=
  match fuel with
  | 0 => None
  | S f =>
      match s with
      | [] => None
      | c :: t =>
          let single :=
            match p_class_char s with
            | None => None
            | Some (lo, t1) =>
                match t1 with
                | m :: ((e :: _) as t2) =>
                    if ceq m "-"%char && negb (ceq e "]"%char) then
                      match p_class_char t2 with
                      | Some (hi, t3) =>
                          if Z.ltb hi lo then None
                          else cons_item (false, fold_if fl [(lo, hi)]) (p_class_items f fl false t3)
                      | None => None
                      end
                    else cons_item (false, fold_if fl [(lo, lo)]) (p_class_items f fl false t1)
                | _ => cons_item (false, fold_if fl [(lo, lo)]) (p_class_items f fl false t1)
                end
            end in
          if ceq c "]"%char && negb first then Some ([], t)
          else
            let named :=
              match t with
              | d :: ((_ :: _) as u) =>
                  if ceq c "["%char && ceq d ":"%char then
                    match split_colon_bracket u with
                    | Some (body, rest) => Some (posix_class body, rest)
                    | None => None
                    end
                  else None
              | _ => None
              end in
            match named with
            | Some (Some (n, rs), rest) => cons_item (n, fold_if fl rs) (p_class_items f fl false rest)
            | Some (None, _) => None
            | None =>
                match t with
                | d :: u =>
                    if ceq c "\"%char then
                      if ceq d "p"%char || ceq d "P"%char then None
                      else match perl_class d with
                           | Some (n, rs) => cons_item (n, fold_if fl rs) (p_class_items f fl false u)
                           | None => single
                           end
                    else single
                | [] => single
                end
            end
      end
  end.

(** [parseClass]: the text after the [[]. *)
Definition p_class (fl : flags) (s : list ascii) : option (re * list ascii) :=
  let '(neg, t) := match s with
                   | c :: t => if ceq c "^"%char then (true, t) else (false, s)
                   | [] => (false, s)
                   end in
  match p_class_items (S (List.length t)) fl true t with
  | Some (items, rest) => Some (Cls neg items, rest)
  | None => None
  end.

(** *** Repetition *)

(** [parseInt]: decimal digits, no leading zero. *)
Fixpoint digits (l : list ascii) (acc : Z) : Z * list ascii :=
  match l with
  | c :: t => if byte_in c 48 57 then digits t (acc * 10 + (bval c - 48))%Z else (acc, l)
  | [] => (acc, l)
  end.

Definition p_int (l : list ascii) : option (Z * list ascii) :=
  match l with
  | c :: t =>
      if byte_in c 48 57 then
        match t with
        | d :: _ => if ceq c "0"%char && byte_in d 48 57 then None else Some (digits l 0%Z)
        | [] => Some (digits l 0%Z)
        end
      else None
  | [] => None
  end.

(** [parseRepeat], after the [{]: [{n}], [{n,}] ([None] bound), [{n,m}]. *)
Definition p_repeat (l : list ascii) : option (Z * option Z * list ascii) :=
  match p_int l with
  | None => None
  | Some (mn, t) =>
      match t with
      | [] => None
      | c :: u =>
          if ceq c ","%char then
            match u with
            | [] => None
            | d :: v =>
                if ceq d "}"%char then Some (mn, None, v)
                else match p_int u with
                     | Some (mx, e :: w) => if ceq e "}"%char then Some (mn, Some mx, w) else None
                     | _ => None
                     end
            end
          else if ceq c "}"%char then Some (mn, Some mn, u)
          else None
      end
  end.

(** [repeatIsValid]: nested counted repetitions stay within [n]. *)
Fixpoint repeat_valid (r : re) (n : nat) : bool :=
  match r with
  | Repeat mn mx a =>
      match mx with
      | Some 0 => true
      | _ =>
          let m := match mx with Some m => m | None => mn end in
          if Nat.ltb n m then false else repeat_valid a (if Nat.ltb 0 m then Nat.div n m else n)
      end
  | Cat a b | Alt a b => repeat_valid a n && repeat_valid b n
  | Star a => repeat_valid a n
  | _ => true
  end.

Definition apply_op (c : ascii) (a : re) : re :=
  if ceq c "*"%char then Star a
  else if ceq c "+"%char then Cat a (Star a)
  else Alt a Eps.

(** A [?] after a repetition makes it non-greedy. *)
Definition skip_q (t : list ascii) : list ascii :=
  match t with
  | d :: u => if ceq d "?"%char then u else t
  | [] => t
  end.

(** *** Groups and flags *)

(** [(?P<] or [(?<] (with a character after it): the text after the [<]. *)
Definition named_start (u : list ascii) : option (list ascii) :=
  match u with
  | p :: l :: ((_ :: _) as v) =>
      if ceq p "P"%char && ceq l "<"%char then Some v
      else if ceq p "<"%char then Some (l :: v)
      else None
  | p :: ((_ :: _) as v) => if ceq p "<"%char then Some v else None
  | _ => None
  end.

Fixpoint take_name (l : list ascii) : option (list ascii * list ascii) :=
  match l with
  | [] => None
  | c :: t =>
      if ceq c ">"%char then Some ([], t)
      else match take_name t with
           | Some (n, r) => Some (c :: n, r)
           | None => None
           end
  end.

Definition valid_name (n : list ascii) : bool :=
  match n with
  | [] => false
  | _ => forallb is_word_char n
  end.

(** [parsePerlFlags] after [(?]: the new flags, and whether a group opens
    ([:]) or the flags hold for the rest of the current group ([)]). *)
Fixpoint p_flags (fl : flags) (neg saw : bool) (u : list ascii) : option (bool * flags * list ascii) :=
  match u with
  | [] => None
  | c :: t =>
      if ceq c "i"%char then p_flags (mkFlags (negb neg) (MultiLine fl) (DotNL fl)) neg true t
      else if ceq c "m"%char then p_flags (mkFlags (FoldCase fl) (negb neg) (DotNL fl)) neg true t
      else if ceq c "s"%char then p_flags (mkFlags (FoldCase fl) (MultiLine fl) (negb neg)) neg true t
      else if ceq c "U"%char then p_flags fl neg true t
      else if ceq c "-"%char then (if neg then None else p_flags fl true false t)
      else if ceq c ":"%char || ceq c ")"%char then
        (if neg && negb saw then None else Some (ceq c ":"%char, fl, t))
      else None
  end.

Fixpoint build (items : list re) : re :=
  match items with
  | [] => Eps
  | x :: xs => Cat x (build xs)
  end.

(** *** The parser

    [p_regex] parses alternatives up to a [)] or the end; [p_concat] one
    concatenation, with the stack [st] (top first) and whether the last
    item was a repetition.  The flags hold to the end of the group. *)
Fixpoint p_regex (fuel : nat) (fl : flags) (s : list ascii) : option (re * list ascii) :=
  match fuel with
  | 0 => None
  | S f =>
      match p_concat f fl [] false s with
      | Some (r1, fl1, c :: t) =>
          if ceq c "|"%char then
            match p_regex f fl1 t with
            | Some (r2, u) => Some (Alt r1 r2, u)
            | None => None
            end
          else Some (r1, c :: t)
      | Some (r1, _, []) => Some (r1, [])
      | None => None
      end
  end
with p_concat (fuel : nat) (fl : flags) (st : list re) (lastrep : bool) (s : list ascii)
  : option (re * flags * list ascii) :=
  match fuel with
  | 0 => None
  | S f =>
      match s with
      | [] => Some (build (rev st), fl, [])
      | c :: t =>
          if ceq c "|"%char || ceq c ")"%char then Some (build (rev st), fl, s)
          else if ceq c "("%char then
            let group fl' u :=
              match p_regex f fl' u with
              | Some (r, d :: v) => if ceq d ")"%char then p_concat f fl (r :: st) false v else None
              | _ => None
              end in
            match t with
            | q :: u =>
                if ceq q "?"%char then
                  match named_start u with
                  | Some v =>
                      match take_name v with
                      | Some (name, w) => if valid_name name then group fl w else None
                      | None => None
                      end
                  | None =>
                      match p_flags fl false false u with
                      | Some (true, fl', w) => group fl' w
                      | Some (false, fl', w) => p_concat f fl' st false w
                      | None => None
                      end
                  end
                else group fl t
            | [] => group fl t
            end
          else if ceq c "*"%char || ceq c "+"%char || ceq c "?"%char then
            if lastrep then None
            else match st with
                 | [] => None
                 | a :: st' => p_concat f fl (apply_op c a :: st') true (skip_q t)
                 end
          else if ceq c "{"%char then
            match p_repeat t with
            | Some (mn, mx, u) =>
                if Z.ltb 1000 mn || match mx with Some m => Z.ltb 1000 m || Z.ltb m mn | None => false end
                then None
                else if lastrep then None
                else match st with
                     | [] => None
                     | a :: st' =>
                         let r := Repeat (Z.to_nat mn) (option_map Z.to_nat mx) a in
                         if (Z.leb 2 mn || match mx with Some m => Z.leb 2 m | None => false end)
                            && negb (repeat_valid r 1000)
                         then None
                         else p_concat f fl (r :: st') true (skip_q u)
                     end
            | None => p_concat f fl (Chr "{"%char :: st) false t
            end
          else if ceq c "["%char then
            match p_class fl t with
            | Some (r, u) => p_concat f fl (r :: st) false u
            | None => None
            end
          else if ceq c "."%char then
            p_concat f fl ((if DotNL fl then Cls true [] else Cls true [(false, [(10, 10)%Z])]) :: st) false t
          else if ceq c "^"%char then p_concat f fl ((if MultiLine fl then BolLine else Bol) :: st) false t
          else if ceq c "$"%char then p_concat f fl ((if MultiLine fl then EolLine else Eol) :: st) false t
          else if ceq c "\"%char then
            match p_backslash fl t with
            | Some (items, u) => p_concat f fl (rev items ++ st) false u
            | None => None
            end
          else let '(a, u) := p_raw fl s in p_concat f fl (a :: st) false u
      end
  end.

(** [regexp.Compile]: [None] is a compile error ([MustCompile] panics). *)
Definition Compile (expr : string) : option re :=
  let s := list_ascii_of_string expr in
  match p_regex (2 * S (List.length s)) default_flags s with
  | Some (r, []) => Some r
  | _ => None
  end.

(** *** Matching: the end positions reachable from byte position [i] *)

Definition in_ranges (r : Z) (rs : list (Z * Z)) : bool :=
  existsb (fun '(lo, hi) => Z.leb lo r && Z.leb r hi) rs.

Definition in_items (r : Z) (items : list (bool * list (Z * Z))) : bool :=
  existsb (fun '(n, rs) => xorb n (in_ranges r rs)) items.

(** [acc], extended [n] times by one more step of [f]. *)
Fixpoint star_iter (f : nat -> list nat) (n : nat) (acc : list nat) : list nat :=
  match n with
  | 0 => acc
  | S n' => star_iter f n' (nodup Nat.eq_dec (acc ++ flat_map f acc))
  end.

(** Exactly [n] steps of [f]. *)
Fixpoint iter_ends (f : nat -> list nat) (n : nat) (acc : list nat) : list nat :=
  match n with
  | 0 => acc
  | S n' => iter_ends f n' (nodup Nat.eq_dec (flat_map f acc))
  end.

Definition byte_is (s : list ascii) (i : nat) (p : ascii -> bool) : bool :=
  match nth_error s i with Some c => p c | None => false end.

Fixpoint ends (s : list ascii) (r : re) (i : nat) : list nat :=
  match r with
  | Eps => [i]
  | Chr c => match nth_error s i with
             | Some d => if ceq c d then [S i] else []
             | None => []
             end
  | Cls neg items => match decode (skipn i s) with
                     | Some (ru, w) => if xorb neg (in_items ru items) then [i + w] else []
                     | None => []
                     end
  | Cat a b => flat_map (ends s b) (ends s a i)
  | Alt a b => ends s a i ++ ends s b i
  | Star a => star_iter (ends s a) (S (List.length s)) [i]
  | Repeat n m a =>
      let base := iter_ends (ends s a) n [i] in
      match m with
      | None => star_iter (ends s a) (S (List.length s)) base
      | Some m => star_iter (ends s a) (m - n) base
      end
  | Bol => if Nat.eqb i 0 then [i] else []
  | Eol => if Nat.eqb i (List.length s) then [i] else []
  | BolLine =>
      if Nat.eqb i 0 || match i with 0 => false | S j => byte_is s j (ceq "010"%char) end
      then [i] else []
  | EolLine =>
      if Nat.eqb i (List.length s) || byte_is s i (ceq "010"%char) then [i] else []
  | WordB b =>
      let before := match i with 0 => false | S j => byte_is s j is_word_char end in
      if Bool.eqb b (xorb before (byte_is s i is_word_char)) then [i] else []
  end.

(** The character boundaries of [s] from [i] on. *)
Fixpoint bounds_from (fuel : nat) (s : list ascii) (i : nat) : list nat :=
  match fuel with
  | 0 => [i]
  | S f => match decode (skipn i s) with
           | Some (_, w) => i :: bounds_from f s (i + w)
           | None => [i]
           end
  end.

(** [len(re.FindAllString(text, -1)) > 0]: the expression matches the
    text from some character boundary on. *)
Definition FindAny (r : re) (text : string) : bool :=
  let s := list_ascii_of_string text in
  existsb (fun i => match ends s r i with [] => false | _ => true end)
          (bounds_from (List.length s) s 0).

End Regexp.

(* ------------------------------------------------------------------ *)
(** ** Data model: configuration, messages, commands *)

(** [config.Config]: the fields the pipeline reads. *)
Record BotConfig := mkConfig {
  PublicMode : bool;
  Owner : list string;
  Prefixes : list string   (** [GetPrefixes()], in configured order *)
}.

(** [types.JID]; [ToNonAD] drops the device part and keeps [User]. *)
Record JID := mkJID { User : string; Server : string; Device : nat }.

Definition ToNonAD (j : JID) : JID := mkJID (User j) (Server j) 0.

(** [libs.IMessage]: the fields the dispatcher reads. *)
Record IMessage := mkMessage {
  Sender : JID;
  IsOwner : bool;
  Body : string;
  Text : string;
  Args : list string;
  Command : string;
  IsMedia : string;          (** media type, [""] when none *)
  IsGroup : bool             (** [m.Info.IsGroup] *)
}.

(** What a handler run looks like from the dispatcher: it returns its
    [bool] within the 60 second window, or the window expires first. *)
Inductive outcome : Type :=
  | Finished : bool -> outcome
  | TimedOut : outcome.

(** [libs.ICommand].  [Before] records whether a before hook is set; the
    hook's own effects are opaque and appear as one event per call. *)
Record ICommand := mkCommand {
  Name : string;
  Before : bool;
  Execute : option (IMessage -> outcome);
  CIsPrefix : bool;
  CIsOwner : bool;
  CIsQuery : bool;
  CIsGroup : bool;
  CIsPrivate : bool;
  CIsMedia : bool;
  CIsWait : bool
}.

(** Observable effects of [ExecuteCommand], in order.  [EExec k] is the
    call of the [Execute] handler of the [k]-th registered command,
    [EBefore k] the call of its [Before] hook. *)
Inductive event : Type :=
  | EBefore : nat -> event
  | EReply : string -> event
  | EReact : string -> event
  | EMarkRead : event
  | EExec : nat -> event.

(* ------------------------------------------------------------------ *)
(** ** [libs/commands.go] *)

(** [NewCommands(cmd)] on the registry [lists] ([cmd] non-nil). *)
Definition NewCommands (cmd : ICommand) (lists : list ICommand) : list ICommand :=
  if String.eqb (Name cmd) "" then lists
  else if existsb (fun existing => String.eqb (Name existing) (Name cmd)) lists then lists
  else lists ++ [cmd].

(** Registering commands one after the other, as the [init] functions do. *)
Definition register_all (cmds : list ICommand) : list ICommand :=
  fold_left (fun lists cmd => NewCommands cmd lists) cmds [].

(** [ExtractPrefix(command)]: first configured prefix that starts [command]. *)
Fixpoint ExtractPrefix (prefixes : list string) (command : string) : option string :=
  match prefixes with
  | [] => None
  | prefix :: rest => if HasPrefix command prefix then Some prefix else ExtractPrefix rest command
  end.

Definition regex_meta : string := "|*+?()[]{}".

Definition anchored (e : string) : string := sapp "^" (sapp e "$").

(** The loop of [HasCommand]; [None] is the panic of [regexp.MustCompile]. *)
Fixpoint has_command_loop (commandName : string) (lists : list ICommand) : option bool :=
  match lists with
  | [] => Some false
  | cmd :: rest =>
      if String.eqb (Name cmd) "" then has_command_loop commandName rest
      else
        let compiled :=
          if ContainsAny (Name cmd) regex_meta
          then Regexp.Compile (anchored (Name cmd))
          else Regexp.Compile (anchored (Regexp.QuoteMeta (Name cmd))) in
        match compiled with
        | None => None
        | Some re => if Regexp.FindAny re commandName then Some true
                     else has_command_loop commandName rest
        end
  end.

(** [HasCommand(name)] *)
Definition HasCommand (prefixes : list string) (lists : list ICommand) (name : string) : option bool :=
  if String.eqb name "" then Some false
  else
    let commandName :=
      match ExtractPrefix prefixes name with
      | Some prefix => TrimSpace (TrimPrefix name prefix)
      | None => name
      end in
    has_command_loop commandName lists.

(* ------------------------------------------------------------------ *)
(** ** [getCachedRegex]: the compiled-pattern cache of [handlers/message.go] *)

Definition compile_pattern (pattern : string) : option Regexp.re :=
  if ContainsAny pattern regex_meta
  then Regexp.Compile (anchored pattern)
  else Regexp.Compile (anchored (Regexp.QuoteMeta pattern)).

(** [getCachedRegex(pattern)] on the cache [commandCache]; [None] is the
    panic of [MustCompile], which leaves the cache unchanged.  The
    [go cleanupCommandCache()] it may start runs concurrently and is
    modelled separately by [cleanupCommandCache]. *)
Definition getCachedRegex (pattern : string) (commandCache : gmap string Regexp.re)
  : option Regexp.re * gmap string Regexp.re :=
  match commandCache !! pattern with
  | Some re => (Some re, commandCache)
  | None =>
      match compile_pattern pattern with
      | Some compiled => (Some compiled, <[pattern := compiled]> commandCache)
      | None => (None, commandCache)
      end
  end.

(** [cleanupCommandCache()] *)
Definition cleanupCommandCache (commandCache : gmap string Regexp.re) : gmap string Regexp.re :=
  if 1500 <? size commandCache then ∅ else commandCache.

(* ------------------------------------------------------------------ *)
(** ** [ExecuteCommand] ([handlers/message.go]) *)

Definition msg_error : string := "An error occurred while executing the command".
Definition msg_query : string := "Query Required".
Definition msg_group : string := "Commands only work in Group Chat".
Definition msg_private : string := "Commands only work in Private Chat".
Definition msg_media : string := "Reply to Media Message, or send Media with Command".

Definition react_wait : string := "⏳".
Definition react_fail : string := "❌".
Definition react_timeout : string := "⏰".

(** The execution step: wait indicator, the handler run raced against the
    60 second timeout, then the indicators of the outcome (the client is
    connected, so [MarkRead] is sent). *)
Definition run_handler (cmd : ICommand) (k : nat) (h : IMessage -> outcome) (m : IMessage)
  : list event :=
  (if CIsWait cmd then [EReact react_wait] else []) ++ [EExec k] ++
  match h m with
  | Finished ok =>
      (if CIsWait cmd && negb ok then [EReact react_fail] else []) ++
      (if CIsWait cmd && ok then [EMarkRead; EReact ""] else [])
  | TimedOut => [EReact react_timeout]
  end.

(** The [for _, cmd := range lists] loop, from the [k]-th command on.
    Returns the events, the cache, and whether the loop ran to its end
    (as opposed to a [return] or a recovered panic). *)
Fixpoint exec_loop (cfg : BotConfig) (m : IMessage) (commandName prefix : string)
  (k : nat) (lists : list ICommand) (cache : gmap string Regexp.re)
  : list event * gmap string Regexp.re * bool :=
  match lists with
  | [] => ([], cache, true)
  | cmd :: rest =>
      let before := if Before cmd then [EBefore k] else [] in
      let '(ore, cache1) := getCachedRegex (Name cmd) cache in
      let continue_with (sent : list event) :=
        let '(t, cache2, fin) := exec_loop cfg m commandName prefix (S k) rest cache1 in
        (before ++ sent ++ t, cache2, fin) in
      match ore with
      | None => (before ++ [EReply msg_error], cache1, false)
      | Some re =>
          if Regexp.FindAny re commandName then
            match Execute cmd with
            | None => continue_with []
            | Some h =>
                if negb (PublicMode cfg) && negb (IsOwner m) then (before, cache1, false)
                else
                  let cmdWithPref := CIsPrefix cmd && negb (String.eqb prefix "") in
                  let cmdWithoutPref := negb (CIsPrefix cmd) in
                  if negb cmdWithPref && negb cmdWithoutPref then continue_with []
                  else if CIsOwner cmd && negb (IsOwner m) then continue_with []
                  else if CIsQuery cmd && String.eqb (Text m) "" then continue_with [EReply msg_query]
                  else if CIsGroup cmd && negb (IsGroup m) then continue_with [EReply msg_group]
                  else if CIsPrivate cmd && IsGroup m then continue_with [EReply msg_private]
                  else if CIsMedia cmd && String.eqb (IsMedia m) "" then continue_with [EReply msg_media]
                  else (before ++ run_handler cmd k h m, cache1, false)
            end
          else continue_with []
      end
  end.

(** [ExecuteCommand(c, m)].  [tick] is whether [time.Now().Unix()%2000 == 0]
    when the loop ends, which starts the cache cleanup. *)
Definition ExecuteCommand (cfg : BotConfig) (lists : list ICommand) (m : IMessage)
  (cache : gmap string Regexp.re) (tick : bool) : list event * gmap string Regexp.re :=
  let commandName := Command m in
  if String.eqb commandName "" then ([], cache)
  else
    match ExtractPrefix (Prefixes cfg) (Body m) with
    | None => ([], cache)
    | Some prefix =>
        let '(t, cache', fin) := exec_loop cfg m commandName prefix 0 lists cache in
        (t, if fin && tick then cleanupCommandCache cache' else cache')
    end.

(* ------------------------------------------------------------------ *)
(** ** [SerializeMessage] ([libs/message.go]) *)

(** Modelled from the spec: [helpers.ArrayFilter] is not under src/; as
    the spec describes its use, [ArrayFilter(arr, x)] keeps the elements
    of [arr] different from [x], in order. *)
Definition ArrayFilter (arr : list string) (x : string) : list string :=
  List.filter (fun s => negb (String.eqb s x)) arr.

(** [strings.Replace(s, old, new, 1)] *)
Fixpoint ReplaceFirst (s old new : string) : string :=
  if String.prefix old s then sapp new (substring (String.length old) (String.length s - String.length old) s)
  else match s with
       | EmptyString => EmptyString
       | String c s' => String c (ReplaceFirst s' old new)
       end.

(** The parts of [events.Message] that [SerializeMessage] reads; [RText]
    is [helpers.GetTextMessage(mess)], [RMediaType] and [RQuotedMediaType]
    the [helpers.GetMediaType] of the message and of the quoted message
    (when there is one). *)
Record RawMessage := mkRaw {
  AddressingMode : string;
  RSender : JID;
  RSenderAlt : JID;
  RIsGroup : bool;
  RText : string;
  RMediaType : string;
  RQuotedMediaType : option string
}.

(** The owner test of [SerializeMessage]. *)
Definition owner_check (owner : list string) (sender : JID) : bool :=
  existsb (fun v => negb (String.eqb v "") &&
                    Contains (strip_non_digits v) (User (ToNonAD sender))) owner.

(** [SerializeMessage(mess, conn)]; [botUser] is the user part of
    [conn.WA.Store.ID] when the client has one.  [None] is a panic of
    [HasCommand]. *)
Definition SerializeMessage (cfg : BotConfig) (lists : list ICommand) (botUser : option string)
  (mess : RawMessage) : option IMessage :=
  let sender := if String.eqb (AddressingMode mess) "lid" then RSenderAlt mess else RSender mess in
  let body := RText mess in
  let parts := Split body " "%char in
  let command0 := ToLower (hd EmptyString parts) in
  let '(command, hasPrefix) :=
    match ExtractPrefix (Prefixes cfg) command0 with
    | Some prefix => (TrimSpace (TrimPrefix command0 prefix), true)
    | None => (EmptyString, false)
    end in
  let isOwner := owner_check (Owner cfg) sender in
  let body :=
    match botUser with
    | Some u =>
        let botID := sapp "@" u in
        if HasPrefix body botID then TrimBlank (ReplaceFirst body botID "") else body
    | None => body
    end in
  let known := if hasPrefix then HasCommand (Prefixes cfg) lists command else Some false in
  match known with
  | None => None
  | Some known =>
      let '(text, args) :=
        if known then
          let text := if 1 <? List.length parts then Join (tl parts) " " else EmptyString in
          (text, ArrayFilter (Split text " "%char) "")
        else (body, ArrayFilter (Split body " "%char) "") in
      let isMedia :=
        match RQuotedMediaType mess with
        | Some t => t
        | None => RMediaType mess
        end in
      Some (mkMessage sender isOwner body text args command isMedia (RIsGroup mess))
  end.

(** [RegisterHandler]: a serialized message goes to the worker queue (or
    inline) when [m.Command != "" && libs.HasCommand(m.Command)]. *)
Definition queued (cfg : BotConfig) (lists : list ICommand) (m : IMessage) : bool :=
  negb (String.eqb (Command m) "") &&
  match HasCommand (Prefixes cfg) lists (Command m) with
  | Some b => b
  | None => false
  end.

(* ================================================================== *)
(** * Properties *)

(** ** Shape of one step of the dispatch loop *)

Definition is_exec (e : event) : bool :=
  match e with EExec _ => true | _ => false end.


(** Events after the handler call: reactions and the read receipt. *)
Definition is_indicator (e : event) : bool :=
  match e with EReact _ | EMarkRead => true | _ => false end.

Definition exec_count (t : list event) : nat := List.length (List.filter is_exec t).

Definition index_of (e : event) : option nat :=
  match e with EBefore j | EExec j => Some j | _ => None end.

Definition trace_of (r : list event * gmap string Regexp.re * bool) : list event :=
  fst (fst r).

Definition before_ev (cmd : ICommand) (k : nat) : list event :=
  if Before cmd then [EBefore k] else [].

(** One turn of the loop on [cmd :: rest] ends in one of four ways. *)
Lemma exec_loop_cons_cases cfg m cn p k cmd rest cache :
  let r := exec_loop cfg m cn p k (cmd :: rest) cache in
  (exists cache1 sent,
      (sent = [] \/ exists s, sent = [EReply s]) /\
      r = (before_ev cmd k ++ sent ++ trace_of (exec_loop cfg m cn p (S k) rest cache1),
           snd (fst (exec_loop cfg m cn p (S k) rest cache1)),
           snd (exec_loop cfg m cn p (S k) rest cache1)))
  \/ (exists cache1, r = (before_ev cmd k ++ [EReply msg_error], cache1, false))
  \/ (exists cache1, r = (before_ev cmd k, cache1, false))
  \/ (exists cache1 h, r = (before_ev cmd k ++ run_handler cmd k h m, cache1, false)).
Proof.
  cbn zeta. simpl exec_loop. unfold before_ev.
  destruct (getCachedRegex (Name cmd) cache) as [[re|] cache1].
  2:{ right; left; eauto. }
  destruct (exec_loop cfg m cn p (S k) rest cache1) as [[t c2] fin] eqn:E.
  unfold trace_of; simpl.
  destruct (Regexp.FindAny re cn).
  2:{ left; exists cache1, []; rewrite E; auto. }
  destruct (Execute cmd) as [h|].
  2:{ left; exists cache1, []; rewrite E; auto. }
  destruct (negb (PublicMode cfg) && negb (IsOwner m)).
  { right; right; left; eauto. }
  repeat match goal with
  | |- context [if ?b then _ else _] => destruct b
  end;
  solve [ left; exists cache1, []; rewrite E; auto
        | left; eexists cache1, [EReply _]; rewrite E; split; [eauto | reflexivity]
        | right; right; right; eauto ].
Qed.

Lemma exec_count_app (t1 t2 : list event) :
  exec_count (t1 ++ t2) = exec_count t1 + exec_count t2.
Proof. unfold exec_count. rewrite List.filter_app, length_app. reflexivity. Qed.

Lemma exec_count_cons e (t : list event) :
  exec_count (e :: t) = (if is_exec e then 1 else 0) + exec_count t.
Proof. unfold exec_count. simpl. destruct (is_exec e); reflexivity. Qed.

Lemma indicators_no_exec (t : list event) :
  forallb is_indicator t = true -> exec_count t = 0.
Proof.
  induction t as [|e t IH]; simpl; auto.
  intros H. apply andb_prop in H as [He Ht].
  rewrite exec_count_cons, IH by exact Ht. destruct e; simpl in *; congruence.
Qed.

Lemma before_ev_no_exec cmd k : exec_count (before_ev cmd k) = 0.
Proof. unfold before_ev. destruct (Before cmd); reflexivity. Qed.

(** A handler run is one [EExec] followed by indicators only. *)
Lemma run_handler_shape cmd k h m :
  exists pre post,
    run_handler cmd k h m = pre ++ EExec k :: post /\
    exec_count pre = 0 /\ forallb is_indicator post = true.
Proof.
  unfold run_handler.
  exists (if CIsWait cmd then [EReact react_wait] else []).
  eexists. split; [reflexivity|]. split.
  - destruct (CIsWait cmd); reflexivity.
  - destruct (h m) as [ok|]; [|reflexivity].
    destruct (CIsWait cmd), ok; reflexivity.
Qed.

(** Each run of the loop calls at most one handler, and nothing but
    indicators follows that call. *)
Lemma exec_loop_exec_shape cfg m cn p lists :
  forall k cache,
    let t := trace_of (exec_loop cfg m cn p k lists cache) in
    exec_count t = 0 \/
    exists pre j post, t = pre ++ EExec j :: post /\ exec_count pre = 0 /\
                       forallb is_indicator post = true.
Proof.
  induction lists as [|cmd rest IH]; intros k cache; cbn zeta.
  - left. reflexivity.
  - destruct (exec_loop_cons_cases cfg m cn p k cmd rest cache)
      as [[c1 [sent [Hs ->]]] | [[c1 ->] | [[c1 ->] | [c1 [h ->]]]]];
      unfold trace_of; simpl.
    + assert (Hsent : exec_count sent = 0) by (destruct Hs as [->|[s ->]]; reflexivity).
      destruct (IH (S k) c1) as [H0 | [pre [j [post [Ht [Hp Hq]]]]]];
        unfold trace_of in *.
      * left. rewrite !exec_count_app, before_ev_no_exec, Hsent, H0. reflexivity.
      * right. exists (before_ev cmd k ++ sent ++ pre), j, post.
        rewrite Ht, !app_assoc. split; [reflexivity|]. split; [|exact Hq].
        rewrite !exec_count_app, before_ev_no_exec, Hsent, Hp. reflexivity.
    + left. rewrite exec_count_app, before_ev_no_exec. reflexivity.
    + left. apply before_ev_no_exec.
    + right. destruct (run_handler_shape cmd k h m) as [pre [post [-> [Hp Hq]]]].
      exists (before_ev cmd k ++ pre), k, post.
      rewrite app_assoc. split; [reflexivity|]. split; [|exact Hq].
      rewrite exec_count_app, before_ev_no_exec, Hp. reflexivity.
Qed.

Lemma split_at_exec_unique (pre pre' post post' : list event) j j' :
  exec_count pre = 0 -> exec_count pre' = 0 ->
  pre ++ EExec j :: post = pre' ++ EExec j' :: post' -> pre = pre' /\ post = post'.
Proof.
  revert pre'. induction pre as [|e pre IH]; intros pre' H1 H2 Heq; destruct pre' as [|e' pre'];
    simpl in *.
  - inversion Heq; subst; auto.
  - inversion Heq; subst. rewrite exec_count_cons in H2. simpl in H2. lia.
  - inversion Heq; subst. rewrite exec_count_cons in H1. simpl in H1. lia.
  - inversion Heq; subst. rewrite exec_count_cons in H1, H2.
    destruct (IH pre') as [-> ->]; auto; lia.
Qed.

Lemma trace_single_exec (t : list event) :
  (exec_count t = 0 \/
   exists pre j post, t = pre ++ EExec j :: post /\ exec_count pre = 0 /\
                      forallb is_indicator post = true) ->
  exec_count t <= 1 /\
  (forall pre j post, t = pre ++ EExec j :: post -> forallb is_indicator post = true).
Proof.
  intros [H0 | [pre0 [j0 [post0 [Ht [Hp Hq]]]]]].
  - split; [lia|]. intros pre j post ->.
    rewrite exec_count_app, exec_count_cons in H0. simpl in H0. lia.
  - assert (Hc : exec_count t = 1).
    { rewrite Ht, exec_count_app, exec_count_cons, Hp, indicators_no_exec by exact Hq.
      reflexivity. }
    split; [lia|]. intros pre j post Heq.
    assert (Hpre : exec_count pre = 0).
    { rewrite Heq, exec_count_app, exec_count_cons in Hc. simpl in Hc. lia. }
    rewrite Ht in Heq.
    destruct (split_at_exec_unique pre pre0 post post0 j j0) as [_ ->]; auto.
Qed.

(** Claim C1: for every message [ExecuteCommand] calls at most one
    [Execute] handler, whatever the number of registered patterns that
    match its command; once a handler has run (or timed out), only the
    wait/result indicators of that run follow: dispatch is over. *)
Theorem ExecuteCommand_at_most_one_handler cfg lists m cache tick :
  let t := fst (ExecuteCommand cfg lists m cache tick) in
  exec_count t <= 1 /\
  (forall pre j post, t = pre ++ EExec j :: post -> forallb is_indicator post = true).
Proof.
  cbn zeta. apply trace_single_exec. unfold ExecuteCommand.
  destruct (String.eqb (Command m) "").
  { left. reflexivity. }
  destruct (ExtractPrefix (Prefixes cfg) (Body m)) as [prefix|].
  2:{ left. reflexivity. }
  pose proof (exec_loop_exec_shape cfg m (Command m) prefix lists 0 cache) as Hs.
  unfold trace_of in Hs.
  destruct (exec_loop cfg m (Command m) prefix 0 lists cache) as [[t c] fin].
  exact Hs.
Qed.

(** ** Before hooks along the scan *)


Lemma in_before_ev cmd k j :
  In (EBefore j) (before_ev cmd k) <-> j = k /\ Before cmd = true.
Proof.
  unfold before_ev. destruct (Before cmd); simpl; split; intuition congruence.
Qed.

Lemma run_handler_events cmd k h m e :
  In e (run_handler cmd k h m) -> e = EExec k \/ is_indicator e = true.
Proof.
  unfold run_handler. intros H.
  destruct (CIsWait cmd), (h m) as [[]|]; simpl in H; intuition (subst; auto).
Qed.

Lemma before_ev_elem cmd k e : In e (before_ev cmd k) -> e = EBefore k.
Proof. unfold before_ev. destruct (Before cmd); simpl; intuition. Qed.

Lemma exec_loop_indices cfg m cn p lists :
  forall k cache e j,
    In e (trace_of (exec_loop cfg m cn p k lists cache)) -> index_of e = Some j -> k <= j.
Proof.
  induction lists as [|cmd rest IH]; intros k cache e j Hin Hix.
  - contradiction.
  - destruct (exec_loop_cons_cases cfg m cn p k cmd rest cache)
      as [[c1 [sent [Hs Hr]]] | [[c1 Hr] | [[c1 Hr] | [c1 [h Hr]]]]];
      rewrite Hr in Hin; unfold trace_of in Hin; simpl in Hin;
      repeat match goal with
      | H : In _ (_ ++ _) |- _ => apply in_app_or in H as [H|H]
      | H : In _ (before_ev _ _) |- _ =>
          apply before_ev_elem in H; subst; simpl in Hix; inversion Hix; lia
      end.
    + destruct Hs as [->|[s ->]]; simpl in Hin; intuition (subst; discriminate).
    + specialize (IH (S k) c1 e j Hin Hix). lia.
    + simpl in Hin. intuition (subst; discriminate).
    + destruct (run_handler_events cmd k h m e Hin) as [->|Hi].
      * simpl in Hix. inversion Hix. lia.
      * destruct e; simpl in *; congruence.
Qed.





(** ** Sample configuration and registry used by the concrete checks *)

Definition sample_cfg : BotConfig := mkConfig true ["6281234567890"] ["."; "!"].


(** [(ping|p)] of [commands/owner/autobio.go], with a wait indicator. *)
Definition ping_cmd : ICommand :=
  mkCommand "(ping|p)" false (Some (fun _ => Finished true)) true false false false false false true.

(** A command with a [Before] hook, registered after [ping_cmd]. *)
Definition hook_cmd : ICommand :=
  mkCommand "menu" true (Some (fun _ => Finished true)) true false false false false false false.

Definition sample_sender : JID := mkJID "628555" "s.whatsapp.net" 0.

Definition ping_raw : RawMessage :=
  mkRaw "pn" sample_sender sample_sender false ".ping" "" None.

(** The message [SerializeMessage] builds from [.ping]. *)
Definition ping_msg : IMessage :=
  mkMessage sample_sender false ".ping" "" [] "ping" "" false.

Example ping_msg_serialized :
  SerializeMessage sample_cfg [ping_cmd; hook_cmd] None ping_raw = Some ping_msg.
Proof. vm_compute. reflexivity. Qed.

Example ping_dispatch :
  fst (ExecuteCommand sample_cfg [ping_cmd; hook_cmd] ping_msg ∅ false)
  = [EReact react_wait; EExec 0; EMarkRead; EReact ""].
Proof. vm_compute. reflexivity. Qed.





(** ** The global mode gate *)






(** A command whose name [[z-a]] is not a valid expression: [regexp]
    rejects the range [z-a]. *)
Definition bad_range_cmd : ICommand :=
  mkCommand "[z-a]" false (Some (fun _ => Finished true)) false false false false false false false.


(** ** The per-command gates *)

(** The gates checked after the prefix gate, all passed. *)
Definition later_gates_pass (cmd : ICommand) (m : IMessage) : bool :=
  negb (CIsOwner cmd && negb (IsOwner m)) &&
  negb (CIsQuery cmd && String.eqb (Text m) "") &&
  negb (CIsGroup cmd && negb (IsGroup m)) &&
  negb (CIsPrivate cmd && IsGroup m) &&
  negb (CIsMedia cmd && String.eqb (IsMedia m) "").

Lemma ExecuteCommand_requires_prefix cfg lists m cache tick :
  ExtractPrefix (Prefixes cfg) (Body m) = None ->
  fst (ExecuteCommand cfg lists m cache tick) = [].
Proof.
  intros H. unfold ExecuteCommand. rewrite H.
  destruct (String.eqb (Command m) ""); reflexivity.
Qed.

(** Claim C2 (as amended): at a matching command with a handler, past the
    mode gate, the prefix gate skips the command (the scan goes on with
    the next ones, the hook of this one having run) exactly when the
    command has [IsPrefix] set and the extracted prefix is empty; a
    command without [IsPrefix] runs whatever prefix the message carried.
    (Only messages whose body starts with a configured prefix are scanned
    at all: [ExecuteCommand_requires_prefix].) *)
Theorem exec_loop_prefix_gate cfg m cn p k cmd rest cache re cache1 h :
  getCachedRegex (Name cmd) cache = (Some re, cache1) ->
  Regexp.FindAny re cn = true ->
  Execute cmd = Some h ->
  PublicMode cfg || IsOwner m = true ->
  later_gates_pass cmd m = true ->
  exec_loop cfg m cn p k (cmd :: rest) cache =
    if CIsPrefix cmd && String.eqb p "" then
      let '(t, c2, fin) := exec_loop cfg m cn p (S k) rest cache1 in
      (before_ev cmd k ++ t, c2, fin)
    else (before_ev cmd k ++ run_handler cmd k h m, cache1, false).
Proof.
  intros Eg Ef Ee Hm Hl. simpl exec_loop. rewrite Eg, Ef, Ee. unfold before_ev.
  replace (negb (PublicMode cfg) && negb (IsOwner m)) with false
    by (destruct (PublicMode cfg), (IsOwner m); simpl in *; congruence).
  unfold later_gates_pass in Hl.
  repeat rewrite andb_true_iff in Hl. destruct Hl as [[[[H1 H2] H3] H4] H5].
  apply negb_true_iff in H1, H2, H3, H4, H5.
  destruct (CIsPrefix cmd), (String.eqb p ""); simpl;
    rewrite ?H1, ?H2, ?H3, ?H4, ?H5; reflexivity.
Qed.

Lemma exec_loop_prefix_gate_witness :
  exec_loop sample_cfg ping_msg "ping" "." 0 [ping_cmd] ∅ =
    (before_ev ping_cmd 0 ++ run_handler ping_cmd 0 (fun _ => Finished true) ping_msg,
     snd (getCachedRegex "(ping|p)" ∅), false).
Proof.
  pose (re := match fst (getCachedRegex "(ping|p)" ∅) with Some r => r | None => Regexp.Eps end).
  assert (Eg : getCachedRegex (Name ping_cmd) ∅ = (Some re, snd (getCachedRegex "(ping|p)" ∅)))
    by (vm_compute; reflexivity).
  assert (Ef : Regexp.FindAny re "ping" = true) by (vm_compute; reflexivity).
  exact (exec_loop_prefix_gate sample_cfg ping_msg "ping" "." 0 ping_cmd [] ∅ re _
           (fun _ => Finished true) Eg Ef eq_refl eq_refl eq_refl).
Defined.

(** A command registered without [IsPrefix]. *)
Definition hi_cmd : ICommand :=
  mkCommand "hi" false (Some (fun _ => Finished true)) false false false false false false false.

Definition hi_msg : IMessage :=
  mkMessage sample_sender false ".hi" "" [] "hi" "" false.

(** Claim C2 fails as stated: [hi_cmd] does not require a prefix, the
    message [.hi] carried the prefix [.], and the handler still runs. *)
Lemma prefix_gate_ignores_carried_prefix :
  CIsPrefix hi_cmd = false /\ ExtractPrefix (Prefixes sample_cfg) (Body hi_msg) = Some "." /\
  In (EExec 0) (fst (ExecuteCommand sample_cfg [hi_cmd] hi_msg ∅ false)).
Proof. vm_compute. auto. Qed.

(** Claim C9 (as amended): at a matching command with a handler that
    passes the mode, prefix, owner, query, group and private gates, a
    message without media sent to a command with [IsMedia] gets exactly
    the media notice from this command, whose handler does not run; the
    scan goes on with the commands registered after it. *)
Theorem exec_loop_media_gate cfg m cn p k cmd rest cache re cache1 h :
  getCachedRegex (Name cmd) cache = (Some re, cache1) ->
  Regexp.FindAny re cn = true ->
  Execute cmd = Some h ->
  PublicMode cfg || IsOwner m = true ->
  (CIsPrefix cmd && negb (String.eqb p "")) || negb (CIsPrefix cmd) = true ->
  negb (CIsOwner cmd && negb (IsOwner m)) &&
  negb (CIsQuery cmd && String.eqb (Text m) "") &&
  negb (CIsGroup cmd && negb (IsGroup m)) &&
  negb (CIsPrivate cmd && IsGroup m) = true ->
  CIsMedia cmd = true -> IsMedia m = "" ->
  let r := exec_loop cfg m cn p k (cmd :: rest) cache in
  r = (let '(t, c2, fin) := exec_loop cfg m cn p (S k) rest cache1 in
       (before_ev cmd k ++ EReply msg_media :: t, c2, fin)) /\
  ~ In (EExec k) (trace_of r).
Proof.
  intros Eg Ef Ee Hm Hp Hl Hc Hi. cbn zeta.
  assert (Hr : exec_loop cfg m cn p k (cmd :: rest) cache =
               (let '(t, c2, fin) := exec_loop cfg m cn p (S k) rest cache1 in
                (before_ev cmd k ++ EReply msg_media :: t, c2, fin))).
  { simpl exec_loop. rewrite Eg, Ef, Ee. unfold before_ev.
    replace (negb (PublicMode cfg) && negb (IsOwner m)) with false
      by (destruct (PublicMode cfg), (IsOwner m); simpl in *; congruence).
    repeat rewrite andb_true_iff in Hl. destruct Hl as [[[H1 H2] H3] H4].
    apply negb_true_iff in H1, H2, H3, H4.
    replace (negb (CIsPrefix cmd && negb (String.eqb p "")) && negb (negb (CIsPrefix cmd)))
      with false by (destruct (CIsPrefix cmd), (String.eqb p ""); simpl in *; congruence).
    rewrite H1, H2, H3, H4, Hc, Hi. reflexivity. }
  split; [exact Hr|]. rewrite Hr. unfold trace_of.
  pose proof (exec_loop_indices cfg m cn p rest (S k) cache1 (EExec k) k) as Hix.
  unfold trace_of in Hix.
  destruct (exec_loop cfg m cn p (S k) rest cache1) as [[t c2] fin]. simpl in *.
  intros Hin. apply in_app_or in Hin as [Hin|Hin].
  - apply before_ev_elem in Hin. discriminate.
  - destruct Hin as [Hin|Hin]; [discriminate|]. specialize (Hix Hin eq_refl). lia.
Qed.

(** A command that needs both a query and media, like a sticker maker. *)
Definition sticker_cmd : ICommand :=
  mkCommand "(sticker|s)" false (Some (fun _ => Finished true)) true false true false false true false.

Definition sticker_msg : IMessage :=
  mkMessage sample_sender false ".sticker" "" [] "sticker" "" false.

(** The same command without the query requirement. *)
Definition media_cmd : ICommand :=
  mkCommand "(sticker|s)" false (Some (fun _ => Finished true)) true false false false false true false.

Lemma exec_loop_media_gate_witness :
  let r := exec_loop sample_cfg sticker_msg "sticker" "." 0 [media_cmd] ∅ in
  r = (let '(t, c2, fin) := exec_loop sample_cfg sticker_msg "sticker" "." 1 []
                              (snd (getCachedRegex "(sticker|s)" ∅)) in
       (before_ev media_cmd 0 ++ EReply msg_media :: t, c2, fin)) /\
  ~ In (EExec 0) (trace_of r).
Proof.
  pose (re := match fst (getCachedRegex "(sticker|s)" ∅) with Some r => r | None => Regexp.Eps end).
  assert (Eg : getCachedRegex (Name media_cmd) ∅ = (Some re, snd (getCachedRegex "(sticker|s)" ∅)))
    by (vm_compute; reflexivity).
  assert (Ef : Regexp.FindAny re "sticker" = true) by (vm_compute; reflexivity).
  exact (exec_loop_media_gate sample_cfg sticker_msg "sticker" "." 0 media_cmd [] ∅ re _
           (fun _ => Finished true) Eg Ef eq_refl eq_refl eq_refl eq_refl eq_refl eq_refl).
Defined.

(** Claim C9 fails as stated: to [.sticker] without media and without a
    query, [sticker_cmd] answers with the query notice only; the media
    notice is never sent. *)
Lemma media_gate_after_query_gate :
  fst (ExecuteCommand sample_cfg [sticker_cmd] sticker_msg ∅ false) = [EReply msg_query].
Proof. vm_compute. reflexivity. Qed.

(** ** The registry *)

Definition by_name (n : string) (c : ICommand) : bool := String.eqb (Name c) n.

Lemma find_app_ICommand (f : ICommand -> bool) (l1 l2 : list ICommand) :
  List.find f (l1 ++ l2) = match List.find f l1 with Some v => Some v | None => List.find f l2 end.
Proof. induction l1 as [|x l1 IH]; simpl; [reflexivity|]. destruct (f x); auto. Qed.

Lemma NewCommands_nodup cmd lists :
  List.NoDup (map Name lists) -> List.NoDup (map Name (NewCommands cmd lists)).
Proof.
  unfold NewCommands. intros H.
  destruct (String.eqb (Name cmd) "") eqn:E0; [exact H|].
  destruct (existsb (fun existing => String.eqb (Name existing) (Name cmd)) lists) eqn:E1; [exact H|].
  rewrite map_app. simpl. apply List.NoDup_app; [exact H|repeat constructor; simpl; tauto|].
  intros x Hx Hx'. simpl in Hx'. destruct Hx' as [<-|[]].
  apply in_map_iff in Hx as [c [Hc Hin]].
  assert (existsb (fun existing => String.eqb (Name existing) (Name cmd)) lists = true)
    by (apply existsb_exists; exists c; split; [exact Hin|]; apply String.eqb_eq; exact Hc).
  congruence.
Qed.

Lemma NewCommands_dropped cmd lists :
  Name cmd = "" \/ In (Name cmd) (map Name lists) -> NewCommands cmd lists = lists.
Proof.
  unfold NewCommands. intros [H|H].
  - rewrite H. reflexivity.
  - destruct (String.eqb (Name cmd) ""); [reflexivity|].
    apply in_map_iff in H as [c [Hc Hin]].
    replace (existsb (fun existing => String.eqb (Name existing) (Name cmd)) lists) with true;
      [reflexivity|].
    symmetry. apply existsb_exists. exists c. split; [exact Hin|]. apply String.eqb_eq. exact Hc.
Qed.

(** Invariant of [register_all] after the commands [pre]: every entry
    has a name and is the first command of [pre] with that name; every
    named command of [pre] has its name in the registry. *)
Definition first_wins (acc pre : list ICommand) : Prop :=
  (forall c, In c acc -> Name c <> "" /\ List.find (by_name (Name c)) pre = Some c) /\
  (forall c, In c pre -> Name c <> "" -> In (Name c) (map Name acc)).

Lemma first_wins_step acc pre x :
  first_wins acc pre -> first_wins (NewCommands x acc) (pre ++ [x]).
Proof.
  intros [H1 H2]. split.
  - intros c Hc. unfold NewCommands in Hc.
    destruct (String.eqb (Name x) "") eqn:E0.
    + destruct (H1 c Hc) as [Hn Hf]. split; [exact Hn|]. rewrite find_app_ICommand, Hf. reflexivity.
    + destruct (existsb (fun existing => String.eqb (Name existing) (Name x)) acc) eqn:E1.
      * destruct (H1 c Hc) as [Hn Hf]. split; [exact Hn|]. rewrite find_app_ICommand, Hf. reflexivity.
      * apply in_app_or in Hc as [Hc|[<-|[]]].
        -- destruct (H1 c Hc) as [Hn Hf]. split; [exact Hn|]. rewrite find_app_ICommand, Hf. reflexivity.
        -- split; [apply String.eqb_neq; exact E0|].
           rewrite find_app_ICommand.
           destruct (List.find (by_name (Name x)) pre) as [y|] eqn:Ef.
           ++ exfalso. apply List.find_some in Ef as [Hy Hb].
              unfold by_name in Hb. apply String.eqb_eq in Hb.
              assert (Hn : Name y <> "") by (rewrite Hb; apply String.eqb_neq; exact E0).
              specialize (H2 y Hy Hn). rewrite Hb in H2.
              apply in_map_iff in H2 as [c [Hc Hin]].
              assert (existsb (fun existing => String.eqb (Name existing) (Name x)) acc = true)
                by (apply existsb_exists; exists c; split; [exact Hin|]; apply String.eqb_eq; exact Hc).
              congruence.
           ++ simpl. unfold by_name. rewrite String.eqb_refl. reflexivity.
  - intros c Hc Hn. apply in_app_or in Hc as [Hc|[->|[]]].
    + specialize (H2 c Hc Hn). unfold NewCommands.
      destruct (String.eqb (Name x) ""); [exact H2|].
      destruct (existsb _ acc); [exact H2|]. rewrite map_app. apply in_or_app. left. exact H2.
    + unfold NewCommands. apply String.eqb_neq in Hn. rewrite Hn.
      destruct (existsb (fun existing => String.eqb (Name existing) (Name c)) acc) eqn:E1.
      * apply existsb_exists in E1 as [c' [Hin Hb]]. apply String.eqb_eq in Hb.
        rewrite <- Hb. apply in_map. exact Hin.
      * rewrite map_app. apply in_or_app. right. left. reflexivity.
Qed.

Lemma register_all_first_wins cmds :
  forall acc pre, first_wins acc pre ->
    first_wins (fold_left (fun lists cmd => NewCommands cmd lists) cmds acc) (pre ++ cmds).
Proof.
  induction cmds as [|x cmds IH]; intros acc pre H; simpl.
  - rewrite app_nil_r. exact H.
  - replace (pre ++ x :: cmds) with ((pre ++ [x]) ++ cmds) by (rewrite <- app_assoc; reflexivity).
    apply IH. apply first_wins_step. exact H.
Qed.

(** Claim C7: [NewCommands] keeps the names of the registry pairwise
    distinct; a command whose name is empty or already registered leaves
    the registry unchanged; hence, after any sequence of registrations,
    each registry entry is the first registered command with its name
    (a later command with the same name is never in the registry, so its
    handler cannot be dispatched). *)
Theorem NewCommands_unique_first_wins :
  (forall cmd lists, List.NoDup (map Name lists) -> List.NoDup (map Name (NewCommands cmd lists))) /\
  (forall cmd lists, Name cmd = "" \/ In (Name cmd) (map Name lists) -> NewCommands cmd lists = lists) /\
  (forall cmds c, In c (register_all cmds) ->
     Name c <> "" /\ List.find (by_name (Name c)) cmds = Some c).
Proof.
  split; [exact NewCommands_nodup|]. split; [exact NewCommands_dropped|].
  intros cmds c Hc.
  assert (H0 : first_wins [] []) by (split; intros ? []).
  destruct (register_all_first_wins cmds [] [] H0) as [H1 _].
  exact (H1 c Hc).
Qed.

(** ** Compiling patterns: literal names match exactly themselves *)

Module RegexpFacts.
Import Regexp.

(** How [QuoteMeta] writes one byte. *)
Definition quote_char (c : ascii) : list ascii :=
  if is_special c then ["\"%char; c] else [c].

Definition char_ok (c : ascii) : Prop := Contains regex_meta (String c EmptyString) = false.

Lemma list_ascii_of_string_sapp a b :
  list_ascii_of_string (sapp a b) = list_ascii_of_string a ++ list_ascii_of_string b.
Proof. unfold sapp. induction a as [|c a IH]; simpl; [reflexivity|]. rewrite IH. reflexivity. Qed.

Lemma list_QuoteMeta p :
  list_ascii_of_string (QuoteMeta p) = flat_map quote_char (list_ascii_of_string p).
Proof.
  induction p as [|c p IH]; simpl; [reflexivity|].
  unfold quote_char. destruct (is_special c); simpl; rewrite IH; reflexivity.
Qed.

Lemma ContainsAny_false p :
  ContainsAny p regex_meta = false -> Forall char_ok (list_ascii_of_string p).
Proof.
  induction p as [|c p IH]; simpl; intros H; [constructor|].
  apply orb_false_iff in H as [H1 H2]. constructor; [exact H1 | exact (IH H2)].
Qed.

(** *** The parser on a quoted byte, checked on all 256 bytes *)

Lemma concat_escaped c f st lr rest : char_ok c -> is_special c = true ->
  p_concat (S f) default_flags st lr ("\"%char :: c :: rest) =
  p_concat f default_flags (Chr c :: st) false rest.
Proof.
  unfold char_ok. destruct c as [[] [] [] [] [] [] [] []]; intros H1 H2;
    vm_compute in H1, H2; try discriminate; reflexivity.
Qed.

Lemma concat_plain c f st lr rest : char_ok c -> is_special c = false ->
  p_concat (S f) default_flags st lr (c :: rest) =
  let '(a, u) := p_raw default_flags (c :: rest) in p_concat f default_flags (a :: st) false u.
Proof.
  unfold char_ok. destruct c as [[] [] [] [] [] [] [] []]; intros H1 H2;
    vm_compute in H1, H2; try discriminate; reflexivity.
Qed.

Lemma cont_not_special c : cont c = true -> is_special c = false.
Proof.
  destruct c as [[] [] [] [] [] [] [] []]; intros H; vm_compute in H;
    try discriminate; reflexivity.
Qed.

Lemma special_not_cont c : is_special c = true -> cont c = false.
Proof.
  intros H. destruct (cont c) eqn:E; [|reflexivity].
  rewrite (cont_not_special c E) in H. discriminate.
Qed.

Lemma byte_in_cont b lo hi : (128 <= lo)%Z -> (hi <= 191)%Z -> byte_in b lo hi = true -> cont b = true.
Proof.
  unfold cont, byte_in. rewrite !andb_true_iff, !Z.leb_le. lia.
Qed.

(** The bytes [utf8.DecodeRune] reads after the first one are continuation bytes. *)
Lemma decode_shape c rest r w : decode (c :: rest) = Some (r, w) ->
  1 <= w <= 1 + List.length rest /\ Forall (fun b => cont b = true) (firstn (w - 1) rest).
Proof.
  unfold decode. cbv zeta.
  destruct (Z.ltb (bval c) 128).
  { intros [= _ <-]. split; [lia|constructor]. }
  destruct (byte_in c 194 223).
  { destruct rest as [|b1 rest]; [intros [= _ <-]; split; [simpl; lia|constructor]|].
    destruct (cont b1) eqn:E1; intros [= _ <-]; (split; [simpl; lia|]); simpl; repeat constructor; auto. }
  destruct (byte_in c 224 239).
  { destruct rest as [|b1 [|b2 rest]]; try (intros [= _ <-]; split; [simpl; lia|constructor]).
    destruct (byte_in b1 _ _) eqn:E1; [|intros [= _ <-]; split; [simpl; lia|constructor]].
    destruct (cont b2) eqn:E2; intros [= _ <-]; (split; [simpl; lia|]); simpl; repeat constructor; auto.
    revert E1. apply byte_in_cont; [destruct (Z.eqb _ _); lia | destruct (Z.eqb _ _); lia]. }
  destruct (byte_in c 240 244).
  { destruct rest as [|b1 [|b2 [|b3 rest]]]; try (intros [= _ <-]; split; [simpl; lia|constructor]).
    destruct (byte_in b1 _ _) eqn:E1; [|intros [= _ <-]; split; [simpl; lia|constructor]].
    destruct (cont b2) eqn:E2; [|intros [= _ <-]; split; [simpl; lia|constructor]].
    destruct (cont b3) eqn:E3; intros [= _ <-]; (split; [simpl; lia|]); simpl; repeat constructor; auto.
    revert E1. apply byte_in_cont; [destruct (Z.eqb _ _); lia | destruct (Z.eqb _ _); lia]. }
  intros [= _ <-]. split; [lia|constructor].
Qed.

Lemma decode_width s r w : decode s = Some (r, w) -> 1 <= w.
Proof.
  destruct s as [|c rest]; [discriminate|]. intros H. apply decode_shape in H. lia.
Qed.

Lemma p_raw_ascii c rest : Z.ltb (bval c) 128 = true -> p_raw default_flags (c :: rest) = (Chr c, rest).
Proof. intros H. unfold p_raw. rewrite H. reflexivity. Qed.

(** A non-ASCII byte of the pattern starts a literal character of [w] bytes. *)
Lemma p_raw_high c rest : Z.ltb (bval c) 128 = false ->
  exists w, 1 <= w <= 1 + List.length rest /\
    Forall (fun b => cont b = true) (firstn (w - 1) rest) /\
    p_raw default_flags (c :: rest) = (bytes_re (firstn w (c :: rest)), skipn w (c :: rest)).
Proof.
  intros Hc. unfold p_raw. rewrite Hc.
  destruct (decode (c :: rest)) as [[r w]|] eqn:Ed.
  - destruct (decode_shape c rest r w Ed) as [Hw Hf].
    destruct (Nat.leb 2 w) eqn:E2.
    + exists w. split; [exact Hw|]. split; [exact Hf|]. reflexivity.
    + apply Nat.leb_gt in E2. exists 1. split; [simpl; lia|]. split; [constructor|]. reflexivity.
  - exists 1. split; [simpl; lia|]. split; [constructor|]. reflexivity.
Qed.

(** Continuation bytes at the head of a quoted text are bytes of the text. *)
Lemma quote_cont_prefix k : forall l,
  Forall (fun b => cont b = true) (firstn k (flat_map quote_char l ++ ["$"%char])) ->
  k <= List.length (flat_map quote_char l ++ ["$"%char]) ->
  k <= List.length l /\
  firstn k (flat_map quote_char l ++ ["$"%char]) = firstn k l /\
  skipn k (flat_map quote_char l ++ ["$"%char]) = flat_map quote_char (skipn k l) ++ ["$"%char].
Proof.
  induction k as [|k IH]; intros l Hf Hk.
  - simpl. split; [lia|]. split; reflexivity.
  - destruct l as [|b l].
    + simpl in Hf. inversion Hf as [|x y Hx]. discriminate Hx.
    + change (flat_map quote_char (b :: l)) with (quote_char b ++ flat_map quote_char l) in Hf, Hk |- *.
      destruct (is_special b) eqn:Es.
      * unfold quote_char in Hf. rewrite Es in Hf.
        simpl in Hf. inversion Hf as [|x y Hx]. discriminate Hx.
      * assert (Hq : quote_char b = [b]) by (unfold quote_char; rewrite Es; reflexivity).
        rewrite Hq in Hf, Hk |- *. simpl in Hf, Hk |- *. inversion Hf as [|x y Hx Hy]; subst.
        destruct (IH l Hy ltac:(lia)) as (H1 & H2 & H3).
        split; [lia|]. rewrite H2, H3. split; reflexivity.
Qed.

Lemma Forall_skipn {A} (P : A -> Prop) k l : Forall P l -> Forall P (skipn k l).
Proof.
  revert l. induction k as [|k IH]; intros l H; [exact H|].
  destruct H as [|x l Hx Hl]; [constructor|]. exact (IH l Hl).
Qed.

(** *** Matching literal bytes *)

Fixpoint matches_at (s : list ascii) (i : nat) (l : list ascii) : bool :=
  match l with
  | [] => true
  | c :: l' =>
      match nth_error s i with Some d => ceq c d | None => false end && matches_at s (S i) l'
  end.

Lemma matches_at_app s i a b :
  matches_at s i (a ++ b) = matches_at s i a && matches_at s (i + List.length a) b.
Proof.
  revert i. induction a as [|c a IH]; intros i; simpl.
  - rewrite Nat.add_0_r. reflexivity.
  - rewrite IH, andb_assoc. replace (S i + List.length a) with (i + S (List.length a)) by lia.
    reflexivity.
Qed.

Lemma ends_bytes s bs i : bs <> [] ->
  ends s (bytes_re bs) i = if matches_at s i bs then [i + List.length bs] else [].
Proof.
  revert i. induction bs as [|c bs IH]; intros i Hne; [congruence|].
  destruct bs as [|c' bs].
  - simpl. destruct (nth_error s i); [|reflexivity].
    destruct (ceq c a); simpl; [rewrite Nat.add_1_r|]; reflexivity.
  - change (bytes_re (c :: c' :: bs)) with (Cat (Chr c) (bytes_re (c' :: bs))).
    change (matches_at s i (c :: c' :: bs)) with
      ((match nth_error s i with Some d => ceq c d | None => false end) && matches_at s (S i) (c' :: bs)).
    change (ends s (Cat (Chr c) ?X) i) with
      (flat_map (ends s X) (match nth_error s i with Some d => if ceq c d then [S i] else [] | None => [] end)).
    destruct (nth_error s i) as [d|]; [|reflexivity].
    destruct (ceq c d); [|reflexivity].
    cbn [flat_map andb]. rewrite app_nil_r, IH by discriminate.
    destruct (matches_at s (S i) (c' :: bs)); [|reflexivity].
    f_equal. simpl. lia.
Qed.

(** The items [items] match exactly the bytes [l], then what follows them. *)
Definition lit_items_ok (items : list re) (l : list ascii) : Prop :=
  forall s i rest, ends s (build (items ++ rest)) i =
    if matches_at s i l then ends s (build rest) (i + List.length l) else [].

Lemma lit_items_nil : lit_items_ok [] [].
Proof. intros s i rest. simpl. rewrite Nat.add_0_r. reflexivity. Qed.

Lemma lit_items_cons bs items l : bs <> [] -> lit_items_ok items l ->
  lit_items_ok (bytes_re bs :: items) (bs ++ l).
Proof.
  intros Hne Hl s i rest. simpl build. simpl ends at 1.
  rewrite ends_bytes by exact Hne. rewrite matches_at_app.
  destruct (matches_at s i bs); simpl; [|reflexivity].
  rewrite app_nil_r, Hl, length_app, Nat.add_assoc. reflexivity.
Qed.

(** *** The quoted literal, parsed *)

Lemma lit_run n : forall l, List.length l <= n -> Forall char_ok l ->
  forall f st lr, List.length l + 2 <= f ->
  exists items, lit_items_ok items l /\
    p_concat f default_flags st lr (flat_map quote_char l ++ ["$"%char]) =
    Some (build (rev st ++ items ++ [Eol]), default_flags, []).
Proof.
  induction n as [|n IH]; intros l Hn Hok f st lr Hf.
  - destruct l; [|simpl in Hn; lia].
    exists []. split; [exact lit_items_nil|].
    destruct f as [|[|f]]; [simpl in Hf; lia..|]. reflexivity.
  - destruct l as [|c l].
    + exists []. split; [exact lit_items_nil|].
      destruct f as [|[|f]]; [simpl in Hf; lia..|]. reflexivity.
    + inversion Hok as [|x y Hc Hl]; subst.
      simpl in Hn, Hf. destruct f as [|f]; [lia|].
      simpl flat_map. unfold quote_char at 1.
      destruct (is_special c) eqn:Es.
      * simpl app. rewrite (concat_escaped c f st lr _ Hc Es).
        destruct (IH l ltac:(lia) Hl f (Chr c :: st) false ltac:(lia)) as (items & Hi & E).
        exists (Chr c :: items). split.
        { exact (lit_items_cons [c] items l ltac:(discriminate) Hi). }
        rewrite E. simpl rev. rewrite <- app_assoc. reflexivity.
      * simpl app. rewrite (concat_plain c f st lr _ Hc Es). fold quote_char.
        destruct (Z.ltb (bval c) 128) eqn:Ea.
        -- rewrite (p_raw_ascii c _ Ea).
           destruct (IH l ltac:(lia) Hl f (Chr c :: st) false ltac:(lia)) as (items & Hi & E).
           exists (Chr c :: items). split.
           { exact (lit_items_cons [c] items l ltac:(discriminate) Hi). }
           rewrite E. simpl rev. rewrite <- app_assoc. reflexivity.
        -- destruct (p_raw_high c (flat_map quote_char l ++ ["$"%char]) Ea) as (w & Hw & Hcont & Hp).
           rewrite Hp.
           destruct (quote_cont_prefix (w - 1) l Hcont ltac:(lia)) as (Hk & Hfst & Hsnd).
           replace w with (S (w - 1)) by lia. simpl firstn. simpl skipn.
           rewrite Hfst, Hsnd.
           assert (Hlen : List.length (skipn (w - 1) l) <= n) by (rewrite length_skipn; lia).
           destruct (IH (skipn (w - 1) l) Hlen (Forall_skipn _ _ _ Hl) f
                       (bytes_re (c :: firstn (w - 1) l) :: st) false
                       ltac:(rewrite length_skipn; lia)) as (items & Hi & E).
           exists (bytes_re (c :: firstn (w - 1) l) :: items). split.
           { rewrite <- (firstn_skipn (w - 1) l) at 2.
             exact (lit_items_cons (c :: firstn (w - 1) l) items _ ltac:(discriminate) Hi). }
           rewrite E. simpl rev. rewrite <- app_assoc. reflexivity.
Qed.

Lemma p_regex_eq f fl s :
  p_regex (S f) fl s =
  match p_concat f fl [] false s with
  | Some (r1, fl1, c :: t) =>
      if ceq c "|"%char then
        match p_regex f fl1 t with
        | Some (r2, u) => Some (Alt r1 r2, u)
        | None => None
        end
      else Some (r1, c :: t)
  | Some (r1, _, []) => Some (r1, [])
  | None => None
  end.
Proof. reflexivity. Qed.

Lemma concat_caret f st lr rest :
  p_concat (S f) default_flags st lr ("^"%char :: rest) = p_concat f default_flags (Bol :: st) false rest.
Proof. reflexivity. Qed.

Lemma length_flat_quote l : List.length l <= List.length (flat_map quote_char l).
Proof.
  induction l as [|c l IH]; [simpl; lia|].
  change (flat_map quote_char (c :: l)) with (quote_char c ++ flat_map quote_char l).
  rewrite length_app. unfold quote_char at 1. destruct (is_special c); cbn [List.length]; lia.
Qed.

(** *** Where a match can start *)

Lemma bounds_from_head f s i :
  exists xs, bounds_from f s i = i :: xs /\ Forall (fun x => i < x) xs.
Proof.
  revert i. induction f as [|f IH]; intros i.
  - exists []. split; [reflexivity|constructor].
  - simpl. destruct (decode (skipn i s)) as [[r w]|] eqn:Ed.
    + pose proof (decode_width _ _ _ Ed) as Hw.
      destruct (IH (i + w)) as [ys [E F]]. rewrite E.
      exists ((i + w) :: ys). split; [reflexivity|].
      constructor; [lia|]. revert F. apply List.Forall_impl. lia.
    + exists []. split; [reflexivity|constructor].
Qed.

Lemma existsb_bol_late s X xs : Forall (fun x => 0 < x) xs ->
  existsb (fun i => match ends s (Cat Bol X) i with [] => false | _ => true end) xs = false.
Proof.
  induction 1 as [|x xs Hx _ IH]; [reflexivity|].
  change (existsb ?f (x :: xs)) with (f x || existsb f xs). rewrite IH, orb_false_r.
  destruct x; [lia|]. reflexivity.
Qed.

Lemma matches_at_shift x s i l : matches_at (x :: s) (S i) l = matches_at s i l.
Proof.
  revert i. induction l as [|c l IH]; intros i; simpl; [reflexivity|].
  rewrite IH. reflexivity.
Qed.

Lemma matches_at_prefix s l : matches_at s 0 l = true <-> exists suf, s = l ++ suf.
Proof.
  revert s. induction l as [|c l IH]; intros s; simpl.
  - split; [intros _; exists s; reflexivity | reflexivity].
  - destruct s as [|x s]; simpl.
    + split; [discriminate | intros [suf H]; discriminate H].
    + rewrite matches_at_shift, andb_true_iff, IH. unfold ceq. split.
      * intros [Hc [suf ->]]. apply Ascii.eqb_eq in Hc. subst. exists suf. reflexivity.
      * intros [suf Hs]. injection Hs as -> ->. split; [apply Ascii.eqb_refl | eexists; reflexivity].
Qed.

Lemma list_ascii_of_string_inj a b : list_ascii_of_string a = list_ascii_of_string b -> a = b.
Proof.
  intros H. rewrite <- (string_of_list_ascii_of_string a), <- (string_of_list_ascii_of_string b).
  rewrite H. reflexivity.
Qed.

Lemma FindAny_literal p items t : lit_items_ok items (list_ascii_of_string p) ->
  FindAny (Cat Bol (build (items ++ [Eol]))) t = String.eqb t p.
Proof.
  intros Hi. unfold FindAny. set (s := list_ascii_of_string t). set (l := list_ascii_of_string p) in *.
  destruct (bounds_from_head (List.length s) s 0) as [xs [E F]]. rewrite E.
  change (existsb ?f (?a :: ?l)) with (f a || existsb f l).
  rewrite existsb_bol_late by exact F. rewrite orb_false_r. cbv beta. simpl ends at 1.
  rewrite app_nil_r, (Hi s 0 [Eol]). simpl Nat.add.
  destruct (String.eqb_spec t p) as [->|Hne].
  - assert (Hm : matches_at s 0 l = true) by (apply matches_at_prefix; exists []; rewrite app_nil_r; reflexivity).
    rewrite Hm. simpl. rewrite Nat.eqb_refl. reflexivity.
  - destruct (matches_at s 0 l) eqn:Hm; [|reflexivity].
    apply matches_at_prefix in Hm as [suf Hs]. simpl.
    destruct (List.length l =? List.length s) eqn:Hl; [|reflexivity].
    exfalso. apply Nat.eqb_eq in Hl. rewrite Hs, length_app in Hl.
    destruct suf; [|simpl in Hl; lia].
    rewrite app_nil_r in Hs. apply Hne, list_ascii_of_string_inj. exact Hs.
Qed.

(** A pattern without metacharacters compiles, quoted and anchored, to an
    expression that matches exactly the text equal to it. *)
Lemma compile_literal p : ContainsAny p regex_meta = false ->
  exists re, Compile (anchored (QuoteMeta p)) = Some re /\
             forall t, FindAny re t = String.eqb t p.
Proof.
  intros H. pose proof (ContainsAny_false p H) as Hok.
  unfold Compile, anchored.
  rewrite !list_ascii_of_string_sapp, list_QuoteMeta. simpl list_ascii_of_string.
  set (l := list_ascii_of_string p) in *.
  set (n := List.length (["^"%char] ++ flat_map quote_char l ++ ["$"%char])).
  assert (Hn : List.length l + 2 <= 2 * n).
  { pose proof (length_flat_quote l). unfold n. rewrite !length_app. simpl List.length. lia. }
  clearbody n.
  replace (2 * S n) with (S (S (2 * n))) by lia.
  destruct (lit_run (List.length l) l (le_n _) Hok (2 * n) [Bol] false Hn) as (items & Hi & E).
  exists (Cat Bol (build (items ++ [Eol]))). split.
  - change (["^"%char] ++ flat_map quote_char l ++ ["$"%char])
      with ("^"%char :: flat_map quote_char l ++ ["$"%char]).
    rewrite p_regex_eq, concat_caret, E. reflexivity.
  - intros t. exact (FindAny_literal p items t Hi).
Qed.

End RegexpFacts.



(** ** The owner flag of [SerializeMessage] *)

(** [sub] occurs inside [s]. *)
Definition substring_of (sub s : string) : Prop :=
  exists pre suf, s = sapp pre (sapp sub suf).

Fixpoint all_digits (s : string) : bool :=
  match s with
  | EmptyString => true
  | String c s' => is_digit c && all_digits s'
  end.

Lemma prefix_spec (sub s : string) :
  String.prefix sub s = true <-> exists suf, s = sapp sub suf.
Proof.
  unfold sapp. revert s. induction sub as [|c sub IH]; intros s.
  - destruct s; simpl; split; eauto.
  - destruct s as [|d s]; simpl.
    + split; [discriminate | intros [suf H]; discriminate H].
    + destruct (Ascii.ascii_dec c d) as [->|Hne].
      * rewrite IH. split; intros [suf H]; exists suf; [rewrite H | injection H]; auto.
      * split; [discriminate | intros [suf H]; injection H as H _; congruence].
Qed.

Lemma Contains_spec (s sub : string) : Contains s sub = true <-> substring_of sub s.
Proof.
  unfold substring_of, sapp. induction s as [|c s IH].
  - change (Contains EmptyString sub) with (String.prefix sub EmptyString || false).
    rewrite orb_false_r. rewrite prefix_spec. unfold sapp. split.
    + intros [suf H]. exists EmptyString, suf. exact H.
    + intros [pre [suf H]]. destruct pre; [exists suf; exact H | discriminate H].
  - change (Contains (String c s) sub) with (String.prefix sub (String c s) || Contains s sub).
    rewrite orb_true_iff, prefix_spec, IH. unfold sapp. split.
    + intros [[suf H]|[pre [suf H]]].
      * exists EmptyString, suf. exact H.
      * exists (String c pre), suf. rewrite H. reflexivity.
    + intros [pre [suf H]]. destruct pre as [|d pre].
      * left. exists suf. exact H.
      * right. injection H as -> H. exists pre, suf. exact H.
Qed.

Lemma strip_all_digits s : all_digits s = true -> strip_non_digits s = s.
Proof.
  induction s as [|c s IH]; simpl; [reflexivity|].
  intros H. apply andb_true_iff in H as [H1 H2]. rewrite H1, IH by exact H2. reflexivity.
Qed.

Lemma owner_check_spec owner sender :
  owner_check owner sender = true <->
  exists v, In v owner /\ v <> EmptyString /\ substring_of (User sender) (strip_non_digits v).
Proof.
  unfold owner_check. rewrite existsb_exists. split.
  - intros [v [Hin Hv]]. apply andb_true_iff in Hv as [H1 H2].
    apply negb_true_iff, String.eqb_neq in H1. apply Contains_spec in H2.
    exists v. auto.
  - intros [v [Hin [H1 H2]]]. exists v. split; [exact Hin|].
    apply andb_true_iff. split.
    + apply negb_true_iff, String.eqb_neq. exact H1.
    + apply Contains_spec. exact H2.
Qed.

Lemma SerializeMessage_IsOwner_eq cfg lists bu mess m :
  SerializeMessage cfg lists bu mess = Some m -> IsOwner m = owner_check (Owner cfg) (Sender m).
Proof.
  unfold SerializeMessage. intros H.
  destruct (ExtractPrefix (Prefixes cfg) _); cbn zeta in H;
    [destruct (HasCommand _ _ _) as [[]|]|]; try discriminate H;
    [destruct (1 <? _)|..]; injection H as <-; reflexivity.
Qed.

(** A sender whose user part is a phone number written in full. *)
Definition owner_raw : RawMessage :=
  mkRaw "pn" (mkJID "6281234567890" "s.whatsapp.net" 3) sample_sender false "hello" "" None.

(** A sender whose user part carries a non-digit byte. *)
Definition odd_user_raw : RawMessage :=
  mkRaw "pn" (mkJID "62a" "s.whatsapp.net" 0) sample_sender false "hello" "" None.

(** C5: [IsOwner] holds exactly when some non-empty configured owner
    string, stripped of its non-digits, contains the sender's user part (as
    it is, without canonicalization) as a substring; for a user part made
    of digits only, this is containment of the digits-only form. *)
Theorem SerializeMessage_IsOwner cfg lists bu mess m :
  SerializeMessage cfg lists bu mess = Some m ->
  (IsOwner m = true <->
   exists v, In v (Owner cfg) /\ v <> EmptyString /\
             substring_of (User (Sender m)) (strip_non_digits v)) /\
  (all_digits (User (Sender m)) = true ->
   (IsOwner m = true <->
    exists v, In v (Owner cfg) /\ v <> EmptyString /\
              substring_of (strip_non_digits (User (Sender m))) (strip_non_digits v))).
Proof.
  intros H. rewrite (SerializeMessage_IsOwner_eq _ _ _ _ _ H), owner_check_spec.
  split; [reflexivity|]. intros Hd. rewrite (strip_all_digits _ Hd). reflexivity.
Qed.

Lemma SerializeMessage_IsOwner_witness :
  SerializeMessage sample_cfg [] None owner_raw =
    Some (mkMessage (mkJID "6281234567890" "s.whatsapp.net" 3) true "hello" "hello" ["hello"] "" "" false) /\
  (exists v, In v (Owner sample_cfg) /\ v <> EmptyString /\
     substring_of "6281234567890" (strip_non_digits v)).
Proof.
  assert (H : SerializeMessage sample_cfg [] None owner_raw =
    Some (mkMessage (mkJID "6281234567890" "s.whatsapp.net" 3) true "hello" "hello" ["hello"] "" "" false))
    by (vm_compute; reflexivity).
  split; [exact H|].
  exact (proj1 (proj1 (SerializeMessage_IsOwner sample_cfg [] None owner_raw _ H)) eq_refl).
Defined.

(** A user part "62a" is not contained in the owner "62", although its
    digits-only form "62" is. *)
Lemma owner_not_canonicalized :
  match SerializeMessage (mkConfig true ["62"] ["."]) [] None odd_user_raw with
  | Some m => IsOwner m = false /\
              Contains (strip_non_digits "62") (strip_non_digits (User (Sender m))) = true
  | None => False
  end.
Proof. vm_compute. split; reflexivity. Qed.

(** ** Command and arguments of [SerializeMessage] *)

Fixpoint has_char (c : ascii) (s : string) : bool :=
  match s with
  | EmptyString => false
  | String d s' => Ascii.eqb d c || has_char c s'
  end.

Lemma Split_pieces s sep : Forall (fun w => has_char sep w = false) (Split s sep).
Proof.
  induction s as [|c s IH]; simpl; [repeat constructor|].
  destruct (Ascii.eqb c sep) eqn:Ec; [constructor; [reflexivity | exact IH]|].
  destruct (Split s sep) as [|w ws]; [repeat constructor; simpl; rewrite Ec; reflexivity|].
  inversion IH as [|w' ws' Hw Hws]; subst.
  constructor; [simpl; rewrite Ec, Hw; reflexivity | exact Hws].
Qed.

Lemma Split_nil s sep : Split s sep <> [].
Proof.
  induction s as [|c s IH]; simpl; [discriminate|].
  destruct (Ascii.eqb c sep); [discriminate|]. destruct (Split s sep); discriminate.
Qed.

Lemma Split_piece w sep : has_char sep w = false -> Split w sep = [w].
Proof.
  induction w as [|c w IH]; simpl; [reflexivity|].
  intros H. apply orb_false_iff in H as [H1 H2]. rewrite H1, IH by exact H2. reflexivity.
Qed.

Lemma Split_piece_sep w rest sep : has_char sep w = false ->
  Split (sapp w (String sep rest)) sep = w :: Split rest sep.
Proof.
  unfold sapp. induction w as [|c w IH]; simpl; intros H.
  - rewrite Ascii.eqb_refl. reflexivity.
  - apply orb_false_iff in H as [H1 H2]. rewrite H1, IH by exact H2. reflexivity.
Qed.

Lemma Split_Join ws : ws <> [] -> Forall (fun w => has_char " "%char w = false) ws ->
  Split (Join ws " ") " "%char = ws.
Proof.
  induction ws as [|w ws IH]; intros Hne Hf; [congruence|].
  inversion Hf as [|w' ws' Hw Hws]; subst.
  destruct ws as [|w2 ws].
  - apply Split_piece. exact Hw.
  - change (Join (w :: w2 :: ws) " ") with (sapp w (String " " (Join (w2 :: ws) " "))).
    rewrite Split_piece_sep, IH by (try discriminate; assumption). reflexivity.
Qed.

(** The argument list of a registered command: the space-separated tokens
    after the first, rejoined and split again, keep their non-empty ones. *)
Lemma args_of_tail body :
  let parts := Split body " "%char in
  ArrayFilter (Split (if 1 <? List.length parts then Join (tl parts) " " else EmptyString) " "%char)
    EmptyString = ArrayFilter (tl parts) EmptyString.
Proof.
  cbn zeta. pose proof (Split_nil body " "%char) as Hn.
  pose proof (Split_pieces body " "%char) as Hf.
  destruct (Split body " "%char) as [|w ws]; [congruence|].
  inversion Hf as [|w' ws' _ Hws]; subst.
  destruct ws as [|w2 ws]; [reflexivity|].
  simpl tl. change (1 <? List.length (w :: w2 :: ws)) with true. cbv iota.
  rewrite Split_Join by (try discriminate; assumption). reflexivity.
Qed.

(** [.foo a b] with no command registered. *)
Definition foo_raw : RawMessage :=
  mkRaw "pn" sample_sender sample_sender false ".foo a b" "" None.

(** C4: with [parts] the pieces of the body split on the space byte and
    [token] the lower-cased first piece: when a configured prefix starts
    [token], [Command] is [token] without the prefix and trimmed, and [Args]
    holds the non-empty pieces after the first if [HasCommand(Command)]
    holds, the non-empty space-separated pieces of the whole (mention
    stripped) body otherwise; with no prefix, [Command] is empty and [Args]
    holds the non-empty space-separated pieces of the body. *)
Theorem SerializeMessage_command_args cfg lists bu mess m :
  SerializeMessage cfg lists bu mess = Some m ->
  let parts := Split (RText mess) " "%char in
  let token := ToLower (hd EmptyString parts) in
  match ExtractPrefix (Prefixes cfg) token with
  | Some p =>
      Command m = TrimSpace (TrimPrefix token p) /\
      (HasCommand (Prefixes cfg) lists (Command m) = Some true ->
       Args m = ArrayFilter (tl parts) EmptyString) /\
      (HasCommand (Prefixes cfg) lists (Command m) = Some false ->
       Args m = ArrayFilter (Split (Body m) " "%char) EmptyString)
  | None =>
      Command m = EmptyString /\ Args m = ArrayFilter (Split (Body m) " "%char) EmptyString
  end.
Proof.
  unfold SerializeMessage. intros H. cbn zeta in *.
  pose proof (args_of_tail (RText mess)) as Ht. cbn zeta in Ht.
  destruct (ExtractPrefix (Prefixes cfg) _) as [p|] eqn:Ep.
  - destruct (HasCommand (Prefixes cfg) lists _) as [[]|] eqn:Eh; try discriminate H;
      injection H as <-; simpl; rewrite Eh; repeat split; try discriminate; auto.
  - injection H as <-. split; reflexivity.
Qed.

Lemma SerializeMessage_command_args_witness :
  SerializeMessage sample_cfg [ping_cmd; hook_cmd] None ping_raw = Some ping_msg /\
  Command ping_msg = "ping" /\ Args ping_msg = [].
Proof.
  assert (H : SerializeMessage sample_cfg [ping_cmd; hook_cmd] None ping_raw = Some ping_msg)
    by (vm_compute; reflexivity).
  pose proof (SerializeMessage_command_args _ _ _ _ _ H) as T.
  simpl in T. destruct T as [T1 [T2 _]].
  split; [exact H|]. split; [exact T1|]. exact (T2 eq_refl).
Defined.

(** [.foo a b] with no command registered: [Command] is "foo" and [Args]
    keeps the first token, [[".foo"; "a"; "b"]], not [["a"; "b"]]. *)
Lemma args_keep_unregistered_command :
  match SerializeMessage sample_cfg [] None foo_raw with
  | Some m => Command m = "foo" /\ Args m = [".foo"; "a"; "b"]
  | None => False
  end.
Proof. vm_compute. split; reflexivity. Qed.

(** ** Registry test of ingestion against the matcher of dispatch *)

(** Every cached expression is the compilation of its key. *)
Definition cache_ok (cache : gmap string Regexp.re) : Prop :=
  forall k re, cache !! k = Some re -> compile_pattern k = Some re.

Lemma cache_ok_empty : cache_ok ∅.
Proof. intros k re H. rewrite lookup_empty in H. discriminate H. Qed.

Lemma getCachedRegex_ok p cache : cache_ok cache -> cache_ok (snd (getCachedRegex p cache)).
Proof.
  unfold getCachedRegex. intros Hok.
  destruct (cache !! p) eqn:E; [exact Hok|].
  destruct (compile_pattern p) as [c|] eqn:Ec; [|exact Hok].
  intros k re H. simpl in H. destruct (String.eq_dec k p) as [->|Hne].
  - rewrite lookup_insert_eq in H. injection H as <-. exact Ec.
  - rewrite lookup_insert_ne in H by congruence. exact (Hok k re H).
Qed.

Lemma cleanupCommandCache_ok cache : cache_ok cache -> cache_ok (cleanupCommandCache cache).
Proof.
  unfold cleanupCommandCache. intros Hok. destruct (1500 <? size cache); [apply cache_ok_empty | exact Hok].
Qed.

Lemma getCachedRegex_fst p cache : cache_ok cache -> fst (getCachedRegex p cache) = compile_pattern p.
Proof.
  unfold getCachedRegex. intros Hok.
  destruct (cache !! p) as [re|] eqn:E.
  - symmetry. exact (Hok p re E).
  - destruct (compile_pattern p); reflexivity.
Qed.

Lemma has_command_loop_cons t cmd rest :
  has_command_loop t (cmd :: rest) =
  if String.eqb (Name cmd) EmptyString then has_command_loop t rest
  else match compile_pattern (Name cmd) with
       | None => None
       | Some re => if Regexp.FindAny re t then Some true else has_command_loop t rest
       end.
Proof. reflexivity. Qed.

Lemma compile_pattern_empty :
  exists re, compile_pattern EmptyString = Some re /\
             forall t, Regexp.FindAny re t = String.eqb t EmptyString.
Proof.
  exact (RegexpFacts.compile_literal EmptyString eq_refl).
Qed.

Lemma has_command_loop_spec t lists :
  t <> EmptyString ->
  has_command_loop t lists <> None ->
  (has_command_loop t lists = Some true <->
   exists cmd re, In cmd lists /\ compile_pattern (Name cmd) = Some re /\ Regexp.FindAny re t = true).
Proof.
  intros Ht. induction lists as [|cmd rest IH]; intros Hn.
  - simpl. split; [discriminate | intros (? & ? & [] & _)].
  - rewrite has_command_loop_cons in Hn |- *.
    destruct (String.eqb_spec (Name cmd) EmptyString) as [He|He].
    + rewrite (IH Hn). split.
      * intros (c & re & Hin & H1 & H2). exists c, re. split; [right; exact Hin | auto].
      * intros (c & re & [<-|Hin] & H1 & H2); [|exists c, re; auto].
        exfalso. destruct compile_pattern_empty as [re0 [E0 F0]].
        rewrite He, E0 in H1. injection H1 as <-. rewrite F0 in H2.
        apply String.eqb_eq in H2. exact (Ht H2).
    + destruct (compile_pattern (Name cmd)) as [re|] eqn:Ec; [|congruence].
      destruct (Regexp.FindAny re t) eqn:Ef.
      * split; [intros _; exists cmd, re; split; [left|]; auto | reflexivity].
      * rewrite (IH Hn). split.
        -- intros (c & r & Hin & H1 & H2). exists c, r. split; [right; exact Hin | auto].
        -- intros (c & r & [<-|Hin] & H1 & H2); [|exists c, r; auto].
           rewrite Ec in H1. injection H1 as <-. congruence.
Qed.

(** The scan of the dispatch loop of [ExecuteCommand] used as a membership
    test: the registered names in order, each compiled through
    [getCachedRegex] (the cache threaded along), until one matches [t];
    [None] is the panic of [regexp.MustCompile]. *)
Fixpoint dispatch_scan (t : string) (lists : list ICommand) (cache : gmap string Regexp.re)
  : option bool :=
  match lists with
  | [] => Some false
  | cmd :: rest =>
      let '(ore, cache1) := getCachedRegex (Name cmd) cache in
      match ore with
      | None => None
      | Some re => if Regexp.FindAny re t then Some true else dispatch_scan t rest cache1
      end
  end.

Lemma has_command_loop_dispatch_scan t lists :
  t <> EmptyString ->
  forall cache, cache_ok cache -> has_command_loop t lists = dispatch_scan t lists cache.
Proof.
  intros Ht. induction lists as [|cmd rest IH]; intros cache Hok; [reflexivity|].
  rewrite has_command_loop_cons. simpl dispatch_scan.
  pose proof (getCachedRegex_fst (Name cmd) cache Hok) as Hf.
  pose proof (getCachedRegex_ok (Name cmd) cache Hok) as Hok1.
  destruct (getCachedRegex (Name cmd) cache) as [ore cache1]. simpl in Hf, Hok1. subst ore.
  destruct (String.eqb_spec (Name cmd) EmptyString) as [He|He].
  - destruct compile_pattern_empty as [re0 [E0 F0]]. rewrite He, E0, F0.
    apply String.eqb_neq in Ht. rewrite Ht. exact (IH cache1 Hok1).
  - destruct (compile_pattern (Name cmd)) as [re|]; [|reflexivity].
    destruct (Regexp.FindAny re t); [reflexivity|]. exact (IH cache1 Hok1).
Qed.

(** C10 (as amended): for a non-empty command token carrying no configured
    prefix, and a cache holding only compilations of its keys, [HasCommand]
    gives the same answer as the scan through [getCachedRegex], panic
    included: true at the first name whose expression matches, a panic when
    a name that does not compile comes first, false otherwise.  When it
    does not panic, it returns true exactly when the expression
    [getCachedRegex] gives for some registered name matches the token; and
    a message with that [Command] is queued exactly when the scan finds a
    match. *)
Theorem HasCommand_agrees_getCachedRegex cfg lists cache t :
  cache_ok cache ->
  t <> EmptyString ->
  ExtractPrefix (Prefixes cfg) t = None ->
  HasCommand (Prefixes cfg) lists t = dispatch_scan t lists cache /\
  (HasCommand (Prefixes cfg) lists t <> None ->
   (HasCommand (Prefixes cfg) lists t = Some true <->
    exists cmd re, In cmd lists /\ fst (getCachedRegex (Name cmd) cache) = Some re /\
                   Regexp.FindAny re t = true)) /\
  (forall m, Command m = t ->
   queued cfg lists m = true <-> dispatch_scan t lists cache = Some true).
Proof.
  intros Hok Ht Hp.
  assert (Hh : HasCommand (Prefixes cfg) lists t = has_command_loop t lists).
  { unfold HasCommand. apply String.eqb_neq in Ht. rewrite Ht, Hp. reflexivity. }
  assert (Hd := has_command_loop_dispatch_scan t lists Ht cache Hok).
  split; [rewrite Hh; exact Hd|]. split.
  - rewrite Hh. intros Hn. rewrite (has_command_loop_spec t lists Ht Hn).
    split; intros (c & re & H1 & H2 & H3); exists c, re;
      rewrite ?getCachedRegex_fst in * by exact Hok; auto.
  - intros m Hm. unfold queued. rewrite Hm, Hh, <- Hd.
    apply String.eqb_neq in Ht. rewrite Ht. simpl negb. cbv iota.
    destruct (has_command_loop t lists) as [[]|]; simpl; split; intros; congruence.
Qed.

(** A registry holding [(a|)]. *)
Definition opt_cmd : ICommand :=
  mkCommand "(a|)" false (Some (fun _ => Finished true)) false false false false false false false.

Lemma HasCommand_agrees_getCachedRegex_witness :
  (cache_ok ∅ /\ "ping" <> EmptyString /\ ExtractPrefix (Prefixes sample_cfg) "ping" = None) /\
  HasCommand (Prefixes sample_cfg) [bad_range_cmd; ping_cmd] "ping" = None /\
  HasCommand (Prefixes sample_cfg) [bad_range_cmd; ping_cmd] "ping"
  = dispatch_scan "ping" [bad_range_cmd; ping_cmd] ∅ /\
  HasCommand (Prefixes sample_cfg) [ping_cmd; bad_range_cmd] "ping"
  = dispatch_scan "ping" [ping_cmd; bad_range_cmd] ∅.
Proof.
  assert (H : cache_ok ∅ /\ "ping" <> EmptyString /\ ExtractPrefix (Prefixes sample_cfg) "ping" = None).
  { split; [apply cache_ok_empty|]. split; [discriminate | reflexivity]. }
  split; [exact H|]. destruct H as (H1 & H2 & H3).
  split; [vm_compute; reflexivity|].
  split; [exact (proj1 (HasCommand_agrees_getCachedRegex sample_cfg _ ∅ "ping" H1 H2 H3))|].
  exact (proj1 (HasCommand_agrees_getCachedRegex sample_cfg _ ∅ "ping" H1 H2 H3)).
Defined.

(** The empty token: [HasCommand("")] answers false at once, while the
    expression [getCachedRegex] gives for the registered [(a|)] matches it. *)
Lemma HasCommand_empty_token_disagrees :
  HasCommand ["."] [opt_cmd] EmptyString = Some false /\
  match fst (getCachedRegex (Name opt_cmd) ∅) with
  | Some re => Regexp.FindAny re EmptyString = true
  | None => False
  end.
Proof. vm_compute. split; reflexivity. Qed.

(* ================================================================== *)
(** * Further properties of the registry and the dispatcher *)

(** ** The compiled-pattern cache *)

(** [getCachedRegex] stores what it compiles under the pattern and touches
    no other key; asking again then returns the same expression from the
    cache and leaves the cache as it is. *)
Theorem getCachedRegex_roundtrip p cache re cache' :
  getCachedRegex p cache = (Some re, cache') ->
  cache' !! p = Some re /\
  getCachedRegex p cache' = (Some re, cache') /\
  (forall k, k <> p -> cache' !! k = cache !! k).
Proof.
  unfold getCachedRegex. intros H.
  destruct (cache !! p) as [r0|] eqn:E.
  - injection H as <- <-. rewrite E. auto.
  - destruct (compile_pattern p) as [c|]; [|discriminate H].
    injection H as <- <-. rewrite lookup_insert_eq.
    split; [reflexivity|]. split; [reflexivity|].
    intros k Hk. apply lookup_insert_ne. congruence.
Qed.

(** The expression [^ping$] compiles to. *)
Definition ping_re : Regexp.re :=
  Regexp.build [Regexp.Bol; Regexp.Chr "p"; Regexp.Chr "i"; Regexp.Chr "n"; Regexp.Chr "g"; Regexp.Eol]%char.

Lemma getCachedRegex_roundtrip_witness :
  getCachedRegex "ping" ∅ = (Some ping_re, <["ping" := ping_re]> ∅) /\
  (<["ping" := ping_re]> (∅ : gmap string Regexp.re)) !! "ping" = Some ping_re.
Proof.
  assert (H : getCachedRegex "ping" ∅ = (Some ping_re, <["ping" := ping_re]> ∅)) by reflexivity.
  split; [exact H|]. exact (proj1 (getCachedRegex_roundtrip _ _ _ _ H)).
Defined.

Lemma exec_loop_cache_indep cfg m cn p lists :
  forall k c1 c2, cache_ok c1 -> cache_ok c2 ->
  fst (fst (exec_loop cfg m cn p k lists c1)) = fst (fst (exec_loop cfg m cn p k lists c2)) /\
  snd (exec_loop cfg m cn p k lists c1) = snd (exec_loop cfg m cn p k lists c2) /\
  cache_ok (snd (fst (exec_loop cfg m cn p k lists c1))).
Proof.
  induction lists as [|cmd rest IH]; intros k c1 c2 H1 H2; simpl; [auto|].
  pose proof (getCachedRegex_fst (Name cmd) c1 H1) as F1.
  pose proof (getCachedRegex_fst (Name cmd) c2 H2) as F2.
  pose proof (getCachedRegex_ok (Name cmd) c1 H1) as O1.
  pose proof (getCachedRegex_ok (Name cmd) c2 H2) as O2.
  destruct (getCachedRegex (Name cmd) c1) as [o1 c1'].
  destruct (getCachedRegex (Name cmd) c2) as [o2 c2']. simpl in *. subst o1 o2.
  destruct (compile_pattern (Name cmd)) as [re|]; [|auto].
  specialize (IH (S k) c1' c2' O1 O2).
  destruct (exec_loop cfg m cn p (S k) rest c1') as [[t1 ca1] f1].
  destruct (exec_loop cfg m cn p (S k) rest c2') as [[t2 ca2] f2].
  simpl in IH. destruct IH as [-> [-> Hok]].
  destruct (Regexp.FindAny re cn); [destruct (Execute cmd) as [h|]|]; simpl;
    repeat (match goal with |- context [if ?b then _ else _] => destruct b end);
    simpl; auto.
Qed.

(** With a cache holding only compilations of its keys (as the empty
    cache the program starts with does), the events [ExecuteCommand]
    produces for a message do not depend on the cache contents nor on the
    cleanup tick, and the cache it leaves still holds only compilations of
    its keys. *)
Theorem ExecuteCommand_cache_transparent cfg lists m cache tick :
  cache_ok cache ->
  fst (ExecuteCommand cfg lists m cache tick) = fst (ExecuteCommand cfg lists m ∅ false) /\
  cache_ok (snd (ExecuteCommand cfg lists m cache tick)).
Proof.
  intros H. unfold ExecuteCommand.
  destruct (String.eqb (Command m) ""); [split; [reflexivity | exact H]|].
  destruct (ExtractPrefix (Prefixes cfg) (Body m)) as [p|]; [|split; [reflexivity | exact H]].
  pose proof (exec_loop_cache_indep cfg m (Command m) p lists 0 cache ∅ H cache_ok_empty) as I.
  destruct (exec_loop cfg m (Command m) p 0 lists cache) as [[t1 ca1] f1].
  destruct (exec_loop cfg m (Command m) p 0 lists ∅) as [[t2 ca2] f2].
  simpl in I |- *. destruct I as [-> [-> Hok]]. split; [reflexivity|].
  destruct (f2 && tick); [apply cleanupCommandCache_ok|]; exact Hok.
Qed.

Lemma ExecuteCommand_cache_transparent_witness :
  snd (getCachedRegex (Name ping_cmd) ∅) <> ∅ /\
  cache_ok (snd (getCachedRegex (Name ping_cmd) ∅)) /\
  fst (ExecuteCommand sample_cfg [ping_cmd; hook_cmd] ping_msg
         (snd (getCachedRegex (Name ping_cmd) ∅)) true) =
  fst (ExecuteCommand sample_cfg [ping_cmd; hook_cmd] ping_msg ∅ false).
Proof.
  assert (Hc : cache_ok (snd (getCachedRegex (Name ping_cmd) ∅)))
    by exact (getCachedRegex_ok _ _ cache_ok_empty).
  split; [|split; [exact Hc|]].
  - intros E.
    assert (L : snd (getCachedRegex (Name ping_cmd) ∅) !! Name ping_cmd = None)
      by (rewrite E; apply lookup_empty).
    revert L. vm_compute. discriminate.
  - exact (proj1 (ExecuteCommand_cache_transparent sample_cfg [ping_cmd; hook_cmd] ping_msg
                    (snd (getCachedRegex (Name ping_cmd) ∅)) true Hc)).
Defined.

(** ** Registration and [HasCommand] *)

Lemma has_command_loop_app t l1 l2 :
  has_command_loop t (l1 ++ l2) =
  match has_command_loop t l1 with Some false => has_command_loop t l2 | r => r end.
Proof.
  induction l1 as [|cmd l1 IH]; [reflexivity|].
  rewrite <- app_comm_cons, !has_command_loop_cons.
  destruct (String.eqb (Name cmd) EmptyString); [exact IH|].
  destruct (compile_pattern (Name cmd)); [|reflexivity].
  destruct (Regexp.FindAny r t); [reflexivity | exact IH].
Qed.

(** Registering a command can change the answer of [HasCommand] only where
    it was false: a recognised name stays recognised and a panic stays a
    panic. *)
Theorem HasCommand_NewCommands_stable prefixes lists cmd t :
  HasCommand prefixes lists t <> Some false ->
  HasCommand prefixes (NewCommands cmd lists) t = HasCommand prefixes lists t.
Proof.
  unfold HasCommand. destruct (String.eqb t ""); [congruence|].
  set (cn := match ExtractPrefix prefixes t with
             | Some prefix => TrimSpace (TrimPrefix t prefix) | None => t end).
  intros H. unfold NewCommands.
  destruct (String.eqb (Name cmd) ""); [reflexivity|].
  destruct (existsb _ lists); [reflexivity|].
  rewrite has_command_loop_app. destruct (has_command_loop cn lists) as [[]|]; congruence.
Qed.

Lemma HasCommand_NewCommands_stable_witness :
  HasCommand ["."] [ping_cmd] "ping" <> Some false /\
  HasCommand ["."] (NewCommands hook_cmd [ping_cmd]) "ping" = HasCommand ["."] [ping_cmd] "ping".
Proof.
  assert (H : HasCommand ["."] [ping_cmd] "ping" <> Some false) by (vm_compute; discriminate).
  split; [exact H|]. exact (HasCommand_NewCommands_stable ["."] [ping_cmd] hook_cmd "ping" H).
Defined.

(** ** [ExtractPrefix] *)

(** [ExtractPrefix] returns the first configured prefix, in configuration
    order, that starts the string, and reports none exactly when no
    configured prefix starts it. *)
Theorem ExtractPrefix_first prefixes s :
  (forall p, ExtractPrefix prefixes s = Some p <->
     exists pre post, prefixes = pre ++ p :: post /\ HasPrefix s p = true /\
                      Forall (fun q => HasPrefix s q = false) pre) /\
  (ExtractPrefix prefixes s = None <-> Forall (fun q => HasPrefix s q = false) prefixes).
Proof.
  induction prefixes as [|q qs [IH1 IH2]]; simpl.
  - split; [intros p; split; [discriminate | intros (pre & post & H & _); destruct pre; discriminate H]|].
    split; [intros _; constructor | reflexivity].
  - destruct (HasPrefix s q) eqn:Eq.
    + split.
      * intros p. split.
        -- intros H. injection H as <-. exists [], qs. auto.
        -- intros (pre & post & H & Hp & Hf). destruct pre as [|q' pre]; simpl in H.
           ++ injection H as -> _. reflexivity.
           ++ injection H as -> _. inversion Hf; congruence.
      * split; [discriminate | intros Hf; inversion Hf; congruence].
    + split.
      * intros p. rewrite IH1. split.
        -- intros (pre & post & H & Hp & Hf). exists (q :: pre), post. rewrite H. auto.
        -- intros (pre & post & H & Hp & Hf). destruct pre as [|q' pre]; simpl in H.
           ++ injection H as -> _. congruence.
           ++ injection H as -> ->. inversion Hf. eauto.
      * rewrite IH2. split; [intros H; constructor; auto | intros H; inversion H; auto].
Qed.

(** ** [ParseArrayFromEnv] and [GetPrefixes] ([libs/commands.go]) *)

(** [strings.HasSuffix(s, suffix)] *)
Definition HasSuffix (s suffix : string) : bool :=
  (String.length suffix <=? String.length s) &&
  String.eqb (substring (String.length s - String.length suffix) (String.length suffix) s) suffix.

(** The [for _, item := range ...] loops of [ParseArrayFromEnv]: trim each
    item and keep the non-empty ones. *)
Fixpoint valid_items (items : list string) : list string :=
  match items with
  | [] => []
  | item :: rest =>
      let item := TrimSpace item in
      if String.eqb item "" then valid_items rest else item :: valid_items rest
  end.

(** [ParseArrayFromEnv(envVar)].  [Getenv] is [os.Getenv] (the empty
    string for an unset variable); [Unmarshal] is [json.Unmarshal] into a
    [[]string]: [Some] of the decoded array, [None] on an error.  Both are
    parameters, so what is proved holds for every environment and decoder. *)
Definition ParseArrayFromEnv (Unmarshal : string -> option (list string))
  (Getenv : string -> string) (envVar : string) : list string :=
  let envValue := Getenv envVar in
  if String.eqb envValue "" then []
  else
    let fromJSON :=
      if HasPrefix envValue "[" && HasSuffix envValue "]" then Unmarshal envValue else None in
    match fromJSON with
    | Some result => valid_items result
    | None => valid_items (Split envValue ",")
    end.

(** [GetPrefixes()] *)
Definition GetPrefixes (Unmarshal : string -> option (list string)) (Getenv : string -> string)
  : list string :=
  ParseArrayFromEnv Unmarshal Getenv "PREFIX".

(** [IsPrefix] cleared: the command as if registered with [IsPrefix: false]. *)
Definition clear_IsPrefix (cmd : ICommand) : ICommand :=
  mkCommand (Name cmd) (Before cmd) (Execute cmd) false (CIsOwner cmd) (CIsQuery cmd)
    (CIsGroup cmd) (CIsPrivate cmd) (CIsMedia cmd) (CIsWait cmd).

Lemma sapp_nil_r s : sapp s EmptyString = s.
Proof.
  induction s as [|c s IH]; [reflexivity|].
  change (sapp (String c s) EmptyString) with (String c (sapp s EmptyString)). rewrite IH. reflexivity.
Qed.

Lemma sapp_assoc a b c : sapp a (sapp b c) = sapp (sapp a b) c.
Proof.
  induction a as [|d a IH]; [reflexivity|].
  change (String d (sapp a (sapp b c)) = String d (sapp (sapp a b) c)). rewrite IH. reflexivity.
Qed.

(** Trimming: [TrimSpace] is idempotent. *)
Section TrimEnc.
Variable E : list (list ascii).
Hypothesis E_nonempty : Forall (fun e => e <> []) E.

Definition no_prefix (l : list ascii) : Prop := forall e, In e E -> lprefix e l = false.

Lemma lprefix_app e l x : lprefix e l = true -> lprefix e (l ++ x) = true.
Proof.
  revert l. induction e as [|c e IH]; intros [|d l]; simpl; try easy.
  rewrite !andb_true_iff. intros [H1 H2]. split; [exact H1 | apply IH, H2].
Qed.

Lemma lprefix_length e l : lprefix e l = true -> List.length e <= List.length l.
Proof.
  revert l. induction e as [|c e IH]; intros [|d l]; simpl; try easy; [lia|].
  rewrite andb_true_iff. intros [_ H]. apply IH in H. lia.
Qed.

Lemma find_prefix_none l : no_prefix l -> List.find (fun e => lprefix e l) E = None.
Proof.
  unfold no_prefix. generalize E. intros E0.
  induction E0 as [|e E' IH]; intros H; [reflexivity|].
  simpl. rewrite (H e (or_introl eq_refl)). apply IH. intros e' He'. apply H. right. exact He'.
Qed.

Lemma trim_left_no_prefix f l : List.length l <= f -> no_prefix (trim_left_enc E f l).
Proof.
  revert l. induction f as [|f IH]; intros l Hl.
  - destruct l; [|simpl in Hl; lia]. intros e He. simpl.
    rewrite List.Forall_forall in E_nonempty.
    destruct e; [exfalso; exact (E_nonempty [] He eq_refl) | reflexivity].
  - simpl. destruct (List.find (fun e => lprefix e l) E) as [e|] eqn:Ef.
    + apply List.find_some in Ef as [He Hp].
      rewrite List.Forall_forall in E_nonempty. pose proof (E_nonempty e He) as Hne.
      apply IH. rewrite length_skipn. apply lprefix_length in Hp.
      destruct e; [congruence|]. simpl in Hp |- *. lia.
    + intros e He. exact (List.find_none _ _ Ef e He).
Qed.

Lemma trim_left_suffix f l : exists pre, l = pre ++ trim_left_enc E f l.
Proof.
  revert l. induction f as [|f IH]; intros l; [exists []; reflexivity|].
  simpl. destruct (List.find (fun e => lprefix e l) E) as [e|]; [|exists []; reflexivity].
  destruct (IH (skipn (List.length e) l)) as [pre Hpre].
  exists (firstn (List.length e) l ++ pre). rewrite <- app_assoc, <- Hpre.
  symmetry. apply firstn_skipn.
Qed.

Lemma trim_left_noop f l : no_prefix l -> trim_left_enc E f l = l.
Proof.
  intros H. destruct f as [|f]; [reflexivity|]. simpl. rewrite (find_prefix_none l H). reflexivity.
Qed.

End TrimEnc.

Lemma space_encodings_nonempty : Forall (fun e => e <> []) space_encodings.
Proof. unfold space_encodings. cbn. repeat constructor; intros H; discriminate H. Qed.

Lemma space_encodings_rev_nonempty : Forall (fun e => e <> []) (map (@rev ascii) space_encodings).
Proof. unfold space_encodings. cbn. repeat constructor; intros H; discriminate H. Qed.

Lemma TrimSpace_idem s : TrimSpace (TrimSpace s) = TrimSpace s.
Proof.
  unfold TrimSpace. rewrite list_ascii_of_string_of_list_ascii. f_equal.
  set (l := list_ascii_of_string s).
  set (L := trim_left_enc space_encodings (List.length l) l).
  assert (HL : no_prefix space_encodings L)
    by (apply trim_left_no_prefix; [exact space_encodings_nonempty | lia]).
  set (Rr := trim_left_enc (map (@rev ascii) space_encodings) (List.length L) (rev L)).
  assert (HRr : no_prefix (map (@rev ascii) space_encodings) Rr)
    by (apply trim_left_no_prefix; [exact space_encodings_rev_nonempty | rewrite length_rev; lia]).
  assert (HR : no_prefix space_encodings (rev Rr)).
  { destruct (trim_left_suffix (map (@rev ascii) space_encodings) (List.length L) (rev L)) as [pre Hpre].
    fold Rr in Hpre. intros e He. destruct (lprefix e (rev Rr)) eqn:Hp; [|reflexivity].
    exfalso. apply (lprefix_app e (rev Rr) (rev pre)) in Hp.
    rewrite <- rev_app_distr, <- Hpre, rev_involutive in Hp. rewrite (HL e He) in Hp. discriminate. }
  change (trim_right_enc space_encodings L) with (rev Rr).
  rewrite (trim_left_noop _ _ _ HR). unfold trim_right_enc.
  rewrite rev_involutive, (trim_left_noop _ _ _ HRr). reflexivity.
Qed.

Lemma valid_items_ok items :
  Forall (fun i => i <> EmptyString /\ TrimSpace i = i) (valid_items items).
Proof.
  induction items as [|item rest IH]; simpl; [constructor|].
  destruct (String.eqb_spec (TrimSpace item) "") as [_|Hne]; [exact IH|].
  constructor; [split; [exact Hne | apply TrimSpace_idem] | exact IH].
Qed.

Lemma valid_items_id items :
  Forall (fun i => i <> EmptyString /\ TrimSpace i = i) items -> valid_items items = items.
Proof.
  induction 1 as [|i rest [H1 H2] _ IH]; simpl; [reflexivity|].
  rewrite H2. apply String.eqb_neq in H1. rewrite H1, IH. reflexivity.
Qed.

Lemma Split_Join_sep (c : ascii) ws : ws <> [] -> Forall (fun w => has_char c w = false) ws ->
  Split (Join ws (String c EmptyString)) c = ws.
Proof.
  induction ws as [|w ws IH]; intros Hne Hf; [congruence|].
  inversion Hf as [|w' ws' Hw Hws]; subst.
  destruct ws as [|w2 ws].
  - apply Split_piece. exact Hw.
  - change (Join (w :: w2 :: ws) (String c EmptyString))
      with (sapp w (String c (Join (w2 :: ws) (String c EmptyString)))).
    rewrite Split_piece_sep, IH by (try discriminate; assumption). reflexivity.
Qed.

Lemma ExtractPrefix_nonempty prefixes s p :
  Forall (fun q => q <> EmptyString) prefixes -> ExtractPrefix prefixes s = Some p -> p <> EmptyString.
Proof.
  induction 1 as [|q qs Hq _ IH]; simpl; [discriminate|].
  destruct (HasPrefix s q); [congruence | exact IH].
Qed.

Lemma exec_loop_clear_IsPrefix cfg m cn p lists :
  p <> EmptyString ->
  forall k cache, exec_loop cfg m cn p k (map clear_IsPrefix lists) cache = exec_loop cfg m cn p k lists cache.
Proof.
  intros Hp. apply String.eqb_neq in Hp.
  induction lists as [|cmd rest IH]; intros k cache; [reflexivity|].
  simpl map. unfold clear_IsPrefix at 1. simpl exec_loop.
  destruct (getCachedRegex (Name cmd) cache) as [[re|] c1]; [|reflexivity].
  rewrite !IH, Hp.
  destruct (Regexp.FindAny re cn); [|reflexivity].
  destruct (Execute cmd); [|reflexivity].
  destruct (CIsPrefix cmd); reflexivity.
Qed.

Lemma ParseArrayFromEnv_valid Unmarshal Getenv v :
  Forall (fun i => i <> EmptyString /\ TrimSpace i = i) (ParseArrayFromEnv Unmarshal Getenv v).
Proof.
  unfold ParseArrayFromEnv. destruct (String.eqb (Getenv v) ""); [constructor|].
  destruct (if HasPrefix (Getenv v) "[" && HasSuffix (Getenv v) "]" then Unmarshal (Getenv v) else None); apply valid_items_ok.
Qed.

(** With the prefixes [GetPrefixes] reads from the environment (for any
    environment and JSON decoder), the [IsPrefix] flag of the registered
    commands has no effect on [ExecuteCommand]: the extracted prefix is
    never empty, so the prefix gate skips no command. *)
Theorem ExecuteCommand_IsPrefix_inert Unmarshal Getenv cfg lists m cache tick :
  Prefixes cfg = GetPrefixes Unmarshal Getenv ->
  ExecuteCommand cfg (map clear_IsPrefix lists) m cache tick = ExecuteCommand cfg lists m cache tick.
Proof.
  intros Hc. unfold ExecuteCommand.
  destruct (String.eqb (Command m) ""); [reflexivity|].
  destruct (ExtractPrefix (Prefixes cfg) (Body m)) as [p|] eqn:E; [|reflexivity].
  assert (Hne : Forall (fun q => q <> EmptyString) (Prefixes cfg)).
  { rewrite Hc. unfold GetPrefixes.
    eapply List.Forall_impl; [|apply ParseArrayFromEnv_valid]. simpl. tauto. }
  rewrite (exec_loop_clear_IsPrefix _ _ _ _ _ (ExtractPrefix_nonempty _ _ _ Hne E)). reflexivity.
Qed.

(** An environment with [PREFIX=.,!] and a decoder that rejects everything. *)
Definition sample_getenv (v : string) : string := if String.eqb v "PREFIX" then ".,!" else "".

Definition no_json (_ : string) : option (list string) := None.

Lemma ExecuteCommand_IsPrefix_inert_witness :
  Prefixes sample_cfg = GetPrefixes no_json sample_getenv /\
  ExecuteCommand sample_cfg (map clear_IsPrefix [ping_cmd; hook_cmd]) ping_msg ∅ false =
  ExecuteCommand sample_cfg [ping_cmd; hook_cmd] ping_msg ∅ false.
Proof.
  assert (H : Prefixes sample_cfg = GetPrefixes no_json sample_getenv) by (vm_compute; reflexivity).
  split; [exact H|]. exact (ExecuteCommand_IsPrefix_inert _ _ _ _ _ _ _ H).
Defined.

(** [ParseArrayFromEnv] never returns an empty item nor one with white
    space at either end, whatever the variable holds and whichever branch
    (JSON array or comma-separated) it takes; an unset or empty variable
    gives no item. *)
Theorem ParseArrayFromEnv_items_trimmed Unmarshal Getenv v :
  Forall (fun i => i <> EmptyString /\ TrimSpace i = i) (ParseArrayFromEnv Unmarshal Getenv v) /\
  (Getenv v = EmptyString -> ParseArrayFromEnv Unmarshal Getenv v = []).
Proof.
  split; [apply ParseArrayFromEnv_valid|].
  intros H. unfold ParseArrayFromEnv. rewrite H. reflexivity.
Qed.

Lemma Join_nonempty i rest sep : i <> EmptyString -> Join (i :: rest) sep <> EmptyString.
Proof.
  intros H. destruct rest as [|j rest]; [exact H|].
  change (Join (i :: j :: rest) sep) with (sapp i (sapp sep (Join (j :: rest) sep))).
  destruct i; [congruence | discriminate].
Qed.

Lemma prefix_nil s : String.prefix EmptyString s = true.
Proof. destruct s; reflexivity. Qed.

Lemma prefix_cons a s1 b s2 :
  String.prefix (String a s1) (String b s2) = if ascii_dec a b then String.prefix s1 s2 else false.
Proof. reflexivity. Qed.

Lemma HasPrefix_sapp_bracket i x : i <> EmptyString ->
  HasPrefix (sapp i x) "[" = HasPrefix i "[".
Proof.
  intros H. destruct i as [|c i]; [congruence|].
  unfold HasPrefix. change (sapp (String c i) x) with (String c (sapp i x)).
  rewrite !prefix_cons. destruct (ascii_dec "[" c); [rewrite !prefix_nil|]; reflexivity.
Qed.

Lemma HasPrefix_Join_bracket i rest sep : i <> EmptyString ->
  HasPrefix (Join (i :: rest) sep) "[" = HasPrefix i "[".
Proof.
  intros H. destruct rest as [|j rest]; [reflexivity|].
  change (Join (i :: j :: rest) sep) with (sapp i (sapp sep (Join (j :: rest) sep))).
  apply HasPrefix_sapp_bracket. exact H.
Qed.

(** Comma-separated round trip: items that are non-empty, trimmed and free
    of commas, joined with commas into the variable, are read back by
    [ParseArrayFromEnv] as the same list, in order (when the first item
    does not start with [[], so the JSON branch is not tried). *)
Theorem ParseArrayFromEnv_comma_roundtrip Unmarshal Getenv v items :
  Getenv v = Join items "," ->
  Forall (fun i => i <> EmptyString /\ TrimSpace i = i /\ has_char ","%char i = false) items ->
  HasPrefix (hd EmptyString items) "[" = false ->
  ParseArrayFromEnv Unmarshal Getenv v = items.
Proof.
  intros Hv Hf Hb. unfold ParseArrayFromEnv. rewrite Hv.
  destruct items as [|i rest]; [reflexivity|].
  inversion Hf as [|i' rest' [Hi1 [Hi2 Hi3]] Hrest]; subst.
  pose proof (Join_nonempty i rest "," Hi1) as Hj. apply String.eqb_neq in Hj. rewrite Hj.
  simpl hd in Hb. rewrite (HasPrefix_Join_bracket i rest "," Hi1), Hb. simpl andb. cbv iota.
  assert (Hc : Forall (fun w => has_char ","%char w = false) (i :: rest)).
  { eapply List.Forall_impl; [|exact Hf]. simpl. tauto. }
  change "," with (String ","%char EmptyString).
  rewrite (Split_Join_sep ","%char (i :: rest) ltac:(discriminate) Hc).
  apply valid_items_id. eapply List.Forall_impl; [|exact Hf]. simpl. tauto.
Qed.

Lemma ParseArrayFromEnv_comma_roundtrip_witness :
  (sample_getenv "PREFIX" = Join ["."; "!"] "," /\
   Forall (fun i => i <> EmptyString /\ TrimSpace i = i /\ has_char ","%char i = false) ["."; "!"] /\
   HasPrefix (hd EmptyString ["."; "!"]) "[" = false) /\
  ParseArrayFromEnv no_json sample_getenv "PREFIX" = ["."; "!"].
Proof.
  assert (H1 : sample_getenv "PREFIX" = Join ["."; "!"] ",") by reflexivity.
  assert (H2 : Forall (fun i => i <> EmptyString /\ TrimSpace i = i /\ has_char ","%char i = false) ["."; "!"])
    by (repeat constructor; discriminate).
  assert (H3 : HasPrefix (hd EmptyString ["."; "!"]) "[" = false) by reflexivity.
  split; [auto|]. exact (ParseArrayFromEnv_comma_roundtrip no_json sample_getenv "PREFIX" _ H1 H2 H3).
Defined.

(** ** A message that starts with a mention of the bot *)

Lemma length_sapp a b : String.length (sapp a b) = String.length a + String.length b.
Proof.
  induction a as [|c a IH]; [reflexivity|].
  change (S (String.length (sapp a b)) = S (String.length a + String.length b)). rewrite IH. reflexivity.
Qed.

Lemma substring_sapp a b n : substring (String.length a) n (sapp a b) = substring 0 n b.
Proof.
  induction a as [|c a IH]; [reflexivity|].
  change (substring (String.length a) n (sapp a b) = substring 0 n b). exact IH.
Qed.

Lemma substring_all b : substring 0 (String.length b) b = b.
Proof.
  induction b as [|c b IH]; [reflexivity|].
  change (String c (substring 0 (String.length b) b) = String c b). rewrite IH. reflexivity.
Qed.

Lemma ReplaceFirst_eq s old new :
  ReplaceFirst s old new =
  if String.prefix old s then sapp new (substring (String.length old) (String.length s - String.length old) s)
  else match s with
       | EmptyString => EmptyString
       | String c s' => String c (ReplaceFirst s' old new)
       end.
Proof. destruct s; reflexivity. Qed.

Lemma ReplaceFirst_prefix a b : ReplaceFirst (sapp a b) a EmptyString = b.
Proof.
  rewrite ReplaceFirst_eq.
  assert (Hp : String.prefix a (sapp a b) = true) by (apply prefix_spec; exists b; reflexivity).
  rewrite Hp. change (sapp EmptyString ?x) with x.
  destruct a as [|c a].
  - change (sapp EmptyString b) with b. rewrite Nat.sub_0_r. apply substring_all.
  - 
    rewrite length_sapp, Nat.add_sub_swap, Nat.sub_diag, Nat.add_0_l by lia.
    rewrite substring_sapp. apply substring_all.
Qed.

Lemma Split_head_char c x sep : Ascii.eqb c sep = false ->
  exists w, hd EmptyString (Split (String c x) sep) = String c w.
Proof.
  intros H. simpl. rewrite H. destruct (Split x sep) as [|w ws]; eexists; reflexivity.
Qed.

Lemma ExtractPrefix_at prefixes w :
  Forall (fun q => exists c q', q = String c q' /\ c <> "@"%char) prefixes ->
  ExtractPrefix prefixes (String "@" w) = None.
Proof.
  induction 1 as [|q qs [c [q' [-> Hc]]] _ IH]; [reflexivity|].
  change (ExtractPrefix (String c q' :: qs) (String "@" w))
    with (if HasPrefix (String "@" w) (String c q') then Some (String c q') else ExtractPrefix qs (String "@" w)).
  unfold HasPrefix at 1. rewrite prefix_cons.
  destruct (ascii_dec c "@"); [congruence | exact IH].
Qed.

Lemma ToLower_at w : ToLower (String "@" w) = String "@" (ToLower w).
Proof.
  unfold ToLower. cbn [list_ascii_of_string forallb].
  destruct (forallb (fun c => nat_of_ascii c <? 128) (list_ascii_of_string w)); reflexivity.
Qed.

(** A message whose text starts with the bot's mention [@user] gets no
    command, even when a command follows the mention (as in
    "@bot .ping"), as long as no configured prefix starts with [@]: the
    first token is the mention, which carries no prefix.  So the message is
    not queued; its [Body] is the rest of the text with the mention
    removed and blanks trimmed. *)
Theorem SerializeMessage_leading_mention cfg lists u mess rest m :
  RText mess = sapp (sapp "@" u) rest ->
  Forall (fun q => exists c q', q = String c q' /\ c <> "@"%char) (Prefixes cfg) ->
  SerializeMessage cfg lists (Some u) mess = Some m ->
  Command m = EmptyString /\ queued cfg lists m = false /\ Body m = TrimBlank rest.
Proof.
  intros Ht Hp H. unfold SerializeMessage in H. cbn zeta in H.
  rewrite Ht in H.
  destruct (Split_head_char "@" (sapp u rest) " " eq_refl) as [w Hw].
  change (sapp (sapp "@" u) rest) with (String "@" (sapp u rest)) in H.
  rewrite Hw, ToLower_at in H.
  rewrite (ExtractPrefix_at _ _ Hp) in H.
  assert (Hb : HasPrefix (String "@" (sapp u rest)) (sapp "@" u) = true)
    by (apply prefix_spec; exists rest; reflexivity).
  rewrite Hb in H.
  change (String "@" (sapp u rest)) with (sapp (sapp "@" u) rest) in H.
  rewrite ReplaceFirst_prefix in H.
  injection H as <-. simpl. auto.
Qed.

(** [@628999 .ping], with the bot's user [628999]. *)
Definition mention_raw : RawMessage :=
  mkRaw "pn" sample_sender sample_sender false "@628999 .ping" "" None.

Lemma SerializeMessage_leading_mention_witness :
  (RText mention_raw = sapp (sapp "@" "628999") " .ping" /\
   Forall (fun q => exists c q', q = String c q' /\ c <> "@"%char) (Prefixes sample_cfg)) /\
  match SerializeMessage sample_cfg [ping_cmd] (Some "628999") mention_raw with
  | Some m => Command m = EmptyString /\ queued sample_cfg [ping_cmd] m = false /\ Body m = ".ping"
  | None => False
  end.
Proof.
  assert (H1 : RText mention_raw = sapp (sapp "@" "628999") " .ping") by reflexivity.
  assert (H2 : Forall (fun q => exists c q', q = String c q' /\ c <> "@"%char) (Prefixes sample_cfg)).
  { repeat constructor; do 2 eexists; (split; [reflexivity | discriminate]). }
  split; [auto|].
  destruct (SerializeMessage sample_cfg [ping_cmd] (Some "628999") mention_raw) as [m|] eqn:E.
  - exact (SerializeMessage_leading_mention _ _ _ _ _ _ H1 H2 E).
  - vm_compute in E. discriminate E.
Defined.

(* ===================================================================== *)
(** * The health system (package systems, src/libs/commands.go)          *)
(* ===================================================================== *)

Module Health.
Local Open Scope Z_scope.

(** Go [int64] arithmetic wraps around modulo 2^64. *)
Definition wrap64 (z : Z) : Z := ((z + 2^63) mod 2^64) - 2^63.
Definition min_int64 : Z := - 2^63.
Definition max_int64 : Z := 2^63 - 1.

(** [database.HealthData]. *)
Record HealthData := mkHealth {
  HHealth : Z; MaxHealth : Z; LastRegenTime : Z; HealthPotions : Z; LastDamage : Z
}.

(** [database.User], with the fields the health system reads or writes;
    [UHealth = None] is a nil [Health] pointer. *)
Record User := mkUser { UName : string; Money : Z; UHealth : option HealthData }.

(** [database.Database]: the [Users] map and [Stats.TotalUsers]. *)
Record Database := mkDB { Users : gmap string User; TotalUsers : Z }.

(** [initializeHealthData], at the time [now]. *)
Definition initializeHealthData (now : Z) : HealthData := mkHealth 100 100 now 0 0.

(** [Database.GetUser]: a missing user is created with [Money 100] and fresh
    health data, and [Stats.TotalUsers] is incremented. *)
Definition GetUser (now : Z) (db : Database) (jid : string) : User * Database :=
  match Users db !! jid with
  | Some u => (u, db)
  | None =>
      let u := mkUser "" 100 (Some (initializeHealthData now)) in
      (u, mkDB (<[jid:=u]> (Users db)) (wrap64 (TotalUsers db + 1)))
  end.

(** Writing back the user the method mutated through its pointer. *)
Definition put_user (db : Database) (jid : string) (u : User) : Database :=
  mkDB (<[jid:=u]> (Users db)) (TotalUsers db).

(** A method of [HealthSystem] that starts with [hs.db.GetUser(userJID)] and
    then works on that user: [f] returns the method's result ([None] for a
    nil-pointer panic) and the user as mutated up to that point. *)
Definition with_user {A} (f : User -> option A * User) (now : Z) (db : Database)
    (jid : string) : option A * Database :=
  let '(u, db1) := GetUser now db jid in
  let '(r, u') := f u in (r, put_user db1 jid u').

Definition set_health (u : User) (h : HealthData) : User :=
  mkUser (UName u) (Money u) (Some h).

(** The messages the methods format with [fmt.Sprintf]. *)
Inductive damage_note := Defeated | CriticalHealth | NoNote.

Inductive hmsg :=
| NoPotions
| AlreadyFull
| PotionUsed (healed current max remaining : Z)
| InvalidPotion
| NeedCoinsPotion (cost quantity : Z) (name : string) (money : Z)
| BoughtPotions (quantity : Z) (name : string) (cost money potions : Z)
| DamageTaken (source : string) (damage current max : Z) (note : damage_note)
| Healed (healed current max : Z)
| NeedCoinsUpgrade (cost money : Z)
| Upgraded (oldMax newMax current cost money : Z).

(** [PotionInfo] and the [PotionTypes] map. *)
Record PotionInfo := mkPotion { PName : string; HealAmount : Z; Price : Z }.

Definition PotionTypes (t : string) : option PotionInfo :=
  if String.eqb t "small" then Some (mkPotion "Small Health Potion" 25 50)
  else if String.eqb t "medium" then Some (mkPotion "Medium Health Potion" 50 100)
  else if String.eqb t "large" then Some (mkPotion "Large Health Potion" 100 200)
  else if String.eqb t "mega" then Some (mkPotion "Mega Health Potion" 200 500)
  else None.

(** [RegenerateHealth], on the user. *)
Definition regenerate (now : Z) (u : User) : option unit * User :=
  match UHealth u with
  | None => (None, u)
  | Some h =>
      let timeSinceLastRegen := wrap64 (now - LastRegenTime h) in
      let regenAmount := Z.quot timeSinceLastRegen 300 in
      if (0 <? regenAmount) && (HHealth h <? MaxHealth h) then
        let newHealth := wrap64 (HHealth h + regenAmount) in
        let newHealth := if MaxHealth h <? newHealth then MaxHealth h else newHealth in
        (Some tt, set_health u
           (mkHealth newHealth (MaxHealth h) now (HealthPotions h) (LastDamage h)))
      else (Some tt, u)
  end.

Definition RegenerateHealth (now : Z) (db : Database) (jid : string) : option unit * Database :=
  with_user (regenerate now) now db jid.

(** [generateHealthBar]: ten cells, the first [filledBars] of them full. *)
Fixpoint bar_cells (i : nat) (bars : nat) (filledBars : Z) : string :=
  match bars with
  | O => EmptyString
  | S b => sapp (if Z.of_nat i <? filledBars then "█" else "░")
                (bar_cells (S i) b filledBars)
  end.

Definition generateHealthBar (percentage : Z) : string :=
  let bars := 10 in
  let filledBars := Z.quot (wrap64 (percentage * bars)) 100 in
  bar_cells 0 (Z.to_nat bars) filledBars.

(** [UseHealthPotion], on the user. *)
Definition use_potion (u : User) : option hmsg * User :=
  match UHealth u with
  | None => (None, u)
  | Some h =>
      if HealthPotions h <=? 0 then (Some NoPotions, u)
      else if MaxHealth h <=? HHealth h then (Some AlreadyFull, u)
      else
        let healAmount := 50 in
        let oldHealth := HHealth h in
        let hv := wrap64 (HHealth h + healAmount) in
        let hv := if MaxHealth h <? hv then MaxHealth h else hv in
        let potions := wrap64 (HealthPotions h - 1) in
        let actualHeal := wrap64 (hv - oldHealth) in
        (Some (PotionUsed actualHeal hv (MaxHealth h) potions),
         set_health u (mkHealth hv (MaxHealth h) (LastRegenTime h) potions (LastDamage h)))
  end.

Definition UseHealthPotion (now : Z) (db : Database) (jid : string) : option hmsg * Database :=
  with_user use_potion now db jid.

(** [BuyHealthPotion], on the user: the money is taken before the potions
    are added through [user.Health]. *)
Definition buy_potion (potionType : string) (quantity : Z) (u : User) : option hmsg * User :=
  match PotionTypes potionType with
  | None => (Some InvalidPotion, u)
  | Some info =>
      let totalCost := wrap64 (Price info * quantity) in
      if Money u <? totalCost then
        (Some (NeedCoinsPotion totalCost quantity (PName info) (Money u)), u)
      else
        let u1 := mkUser (UName u) (wrap64 (Money u - totalCost)) (UHealth u) in
        match UHealth u1 with
        | None => (None, u1)
        | Some h =>
            let potions := wrap64 (HealthPotions h + quantity) in
            let u2 := set_health u1
              (mkHealth (HHealth h) (MaxHealth h) (LastRegenTime h) potions (LastDamage h)) in
            (Some (BoughtPotions quantity (PName info) totalCost (Money u2) potions), u2)
        end
  end.

Definition BuyHealthPotion (now : Z) (db : Database) (jid potionType : string)
    (quantity : Z) : option hmsg * Database :=
  with_user (buy_potion potionType quantity) now db jid.

(** [TakeDamage], on the user. *)
Definition take_damage (now : Z) (damage : Z) (source : string) (u : User) : option hmsg * User :=
  match UHealth u with
  | None => (None, u)
  | Some h =>
      let oldHealth := HHealth h in
      let hv := wrap64 (HHealth h - damage) in
      let hv := if hv <? 0 then 0 else hv in
      let actualDamage := wrap64 (oldHealth - hv) in
      let note := if hv =? 0 then Defeated
                  else if hv <? Z.quot (MaxHealth h) 4 then CriticalHealth else NoNote in
      (Some (DamageTaken source actualDamage hv (MaxHealth h) note),
       set_health u (mkHealth hv (MaxHealth h) (LastRegenTime h) (HealthPotions h) now))
  end.

Definition TakeDamage (now : Z) (db : Database) (jid : string) (damage : Z)
    (source : string) : option hmsg * Database :=
  with_user (take_damage now damage source) now db jid.

(** [HealUser], on the user. *)
Definition heal_user (amount : Z) (u : User) : option hmsg * User :=
  match UHealth u with
  | None => (None, u)
  | Some h =>
      let oldHealth := HHealth h in
      let hv := wrap64 (HHealth h + amount) in
      let hv := if MaxHealth h <? hv then MaxHealth h else hv in
      let actualHeal := wrap64 (hv - oldHealth) in
      (Some (Healed actualHeal hv (MaxHealth h)),
       set_health u (mkHealth hv (MaxHealth h) (LastRegenTime h) (HealthPotions h) (LastDamage h)))
  end.

Definition HealUser (now : Z) (db : Database) (jid : string) (amount : Z) : option hmsg * Database :=
  with_user (heal_user amount) now db jid.

(** [UpgradeMaxHealth], on the user. *)
Definition upgrade_max (u : User) : option hmsg * User :=
  match UHealth u with
  | None => (None, u)
  | Some h =>
      let upgradeCost := wrap64 (wrap64 (wrap64 (MaxHealth h - 100) * 10) + 500) in
      if Money u <? upgradeCost then (Some (NeedCoinsUpgrade upgradeCost (Money u)), u)
      else
        let money := wrap64 (Money u - upgradeCost) in
        let oldMaxHealth := MaxHealth h in
        let mx := wrap64 (MaxHealth h + 10) in
        let hv := wrap64 (HHealth h + 10) in
        let hv := if mx <? hv then mx else hv in
        (Some (Upgraded oldMaxHealth mx hv upgradeCost money),
         mkUser (UName u) money
           (Some (mkHealth hv mx (LastRegenTime h) (HealthPotions h) (LastDamage h))))
  end.

Definition UpgradeMaxHealth (now : Z) (db : Database) (jid : string) : option hmsg * Database :=
  with_user upgrade_max now db jid.








(** The methods of [HealthSystem] that act on one user, by the change they
    make to the database. *)
Inductive health_op :=
| OpUsePotion
| OpBuyPotion (potionType : string) (quantity : Z)
| OpTakeDamage (damage : Z) (source : string)
| OpHealUser (amount : Z)
| OpRegenerate
| OpUpgradeMaxHealth.

Definition run_op (now : Z) (op : health_op) (db : Database) (jid : string) : Database :=
  match op with
  | OpUsePotion => snd (UseHealthPotion now db jid)
  | OpBuyPotion t q => snd (BuyHealthPotion now db jid t q)
  | OpTakeDamage d src => snd (TakeDamage now db jid d src)
  | OpHealUser a => snd (HealUser now db jid a)
  | OpRegenerate => snd (RegenerateHealth now db jid)
  | OpUpgradeMaxHealth => snd (UpgradeMaxHealth now db jid)
  end.

(** The arguments under which the health bounds are kept: no negative
    damage or healing, and no amount that overflows. *)
Definition op_ok (op : health_op) : Prop :=
  match op with
  | OpTakeDamage d _ => 0 <= d <= max_int64
  | OpHealUser a => 0 <= a <= max_int64 - 2^62
  | _ => True
  end.

(** [n] copies of [s]. *)
Fixpoint str_repeat (n : nat) (s : string) : string :=
  match n with O => EmptyString | S n' => sapp s (str_repeat n' s) end.

(** The health data stored for [jid], if any. *)
Definition stored_health (db : Database) (jid : string) : option HealthData :=
  match Users db !! jid with Some u => UHealth u | None => None end.

(** A value an [int64] operation yields without overflow. *)
Definition in_int64 (z : Z) : Prop := min_int64 <= z <= max_int64.

End Health.

Module HealthFacts.
Import Health.
Local Open Scope Z_scope.

Lemma wrap64_small (z : Z) : min_int64 <= z <= max_int64 -> wrap64 z = z.
Proof.
  unfold wrap64, min_int64, max_int64. intros. rewrite Z.mod_small; lia.
Qed.

Ltac w64 := rewrite wrap64_small by (unfold min_int64, max_int64 in *; lia).

Lemma with_user_existing {A} (f : User -> option A * User) now db jid u :
  Users db !! jid = Some u ->
  with_user f now db jid = (fst (f u), put_user db jid (snd (f u))).
Proof.
  intros H. unfold with_user, GetUser. rewrite H. destruct (f u); reflexivity.
Qed.

Lemma put_user_same db jid u : Users db !! jid = Some u -> put_user db jid u = db.
Proof.
  destruct db as [us t]. unfold put_user. simpl. intros H. f_equal. apply insert_id. exact H.
Qed.

(** [UseHealthPotion] does nothing for a user without potions or at full
    health; otherwise it uses one potion and heals [min 50 (MaxHealth - Health)],
    whatever kind of potion was bought. *)
Theorem UseHealthPotion_spec now db jid u h :
  Users db !! jid = Some u -> UHealth u = Some h ->
  min_int64 <= HHealth h <= max_int64 - 50 ->
  min_int64 < HealthPotions h <= max_int64 ->
  let '(r, db') := UseHealthPotion now db jid in
  if (HealthPotions h <=? 0) || (MaxHealth h <=? HHealth h) then
    r = Some (if HealthPotions h <=? 0 then NoPotions else AlreadyFull) /\ db' = db
  else
    let hv := Z.min (HHealth h + 50) (MaxHealth h) in
    r = Some (PotionUsed (hv - HHealth h) hv (MaxHealth h) (HealthPotions h - 1)) /\
    Users db' = <[jid:=set_health u (mkHealth hv (MaxHealth h) (LastRegenTime h)
                                      (HealthPotions h - 1) (LastDamage h))]> (Users db) /\
    TotalUsers db' = TotalUsers db.
Proof.
  intros Hu Hh Hb Hp. unfold UseHealthPotion. rewrite (with_user_existing _ _ _ _ _ Hu).
  unfold use_potion. rewrite Hh.
  destruct (HealthPotions h <=? 0) eqn:E1; simpl.
  { split; [reflexivity | apply put_user_same; exact Hu]. }
  destruct (MaxHealth h <=? HHealth h) eqn:E2; simpl.
  { split; [reflexivity | apply put_user_same; exact Hu]. }
  apply Z.leb_gt in E1. apply Z.leb_gt in E2.
  rewrite (wrap64_small (HHealth h + 50)) by (unfold min_int64, max_int64 in *; lia).
  assert (Hv : (if MaxHealth h <? HHealth h + 50 then MaxHealth h else HHealth h + 50)
               = Z.min (HHealth h + 50) (MaxHealth h)).
  { destruct (Z.ltb_spec (MaxHealth h) (HHealth h + 50)); lia. }
  rewrite Hv.
  assert (min_int64 <= Z.min (HHealth h + 50) (MaxHealth h) - HHealth h <= max_int64)
    by (unfold min_int64, max_int64 in *; lia).
  rewrite (wrap64_small (Z.min _ _ - _)) by assumption.
  rewrite (wrap64_small (HealthPotions h - 1)) by (unfold min_int64, max_int64 in *; lia).
  repeat split; reflexivity.
Qed.

(** [GetUser] returns the stored user when there is one and changes nothing;
    otherwise it stores a new user with [Money 100] and full health 100/100,
    increments [TotalUsers], and touches no other entry. A second call then
    finds the user. *)
Theorem GetUser_get_or_create now db jid :
  let '(u, db') := GetUser now db jid in
  Users db' !! jid = Some u /\
  (forall k, k <> jid -> Users db' !! k = Users db !! k) /\
  GetUser now db' jid = (u, db') /\
  match Users db !! jid with
  | Some u0 => u = u0 /\ db' = db
  | None => u = mkUser "" 100 (Some (mkHealth 100 100 now 0 0)) /\
            TotalUsers db' = wrap64 (TotalUsers db + 1)
  end.
Proof.
  unfold GetUser. destruct (Users db !! jid) as [u0|] eqn:E; simpl.
  - rewrite E. repeat split; auto.
  - rewrite lookup_insert_eq. repeat split; auto.
    intros k Hk. apply lookup_insert_ne. congruence.
Qed.

Lemma with_user_local {A} (f : User -> option A * User) now db jid :
  (forall k, k <> jid -> Users (snd (with_user f now db jid)) !! k = Users db !! k) /\
  (is_Some (Users db !! jid) -> TotalUsers (snd (with_user f now db jid)) = TotalUsers db) /\
  Users (snd (with_user f now db jid)) !! jid = Some (snd (f (fst (GetUser now db jid)))).
Proof.
  unfold with_user, GetUser.
  destruct (Users db !! jid) as [u0|] eqn:E; simpl;
    destruct (f _) as [r u']; simpl.
  - repeat split.
    + intros k Hk. apply lookup_insert_ne. congruence.
    + apply lookup_insert_eq.
  - repeat split.
    + intros k Hk. rewrite !lookup_insert_ne by congruence. reflexivity.
    + intros [x Hx]. discriminate.
    + apply lookup_insert_eq.
Qed.

Lemma wrap64_range (z : Z) : min_int64 <= wrap64 z <= max_int64.
Proof.
  unfold wrap64, min_int64, max_int64.
  pose proof (Z.mod_pos_bound (z + 2^63) (2^64)). lia.
Qed.

Ltac bounds_tac :=
  repeat match goal with
  | |- context [wrap64 ?z] => rewrite (wrap64_small z) by (unfold min_int64, max_int64 in *; lia)
  | |- context [if ?a <? ?b then _ else _] => destruct (Z.ltb_spec a b)
  end; lia.

Definition health_bounded (u : User) : Prop :=
  forall h, UHealth u = Some h -> (0 <= HHealth h <= MaxHealth h /\ MaxHealth h <= 2^62).

Definition health_ok (u : User) : Prop :=
  forall h, UHealth u = Some h -> 0 <= HHealth h <= MaxHealth h.

Lemma use_potion_ok u : health_bounded u -> health_ok (snd (use_potion u)).
Proof.
  unfold health_bounded, health_ok, use_potion. intros Hb h' E.
  destruct (UHealth u) as [h|] eqn:Eh; [|simpl in E; congruence].
  specialize (Hb h eq_refl).
  destruct (HealthPotions h <=? 0); [simpl in E; rewrite Eh in E; injection E as <-; lia|].
  destruct (MaxHealth h <=? HHealth h) eqn:E2;
    [simpl in E; rewrite Eh in E; injection E as <-; lia|].
  apply Z.leb_gt in E2. simpl in E. injection E as <-. simpl. bounds_tac.
Qed.

Lemma buy_potion_ok t q u : health_bounded u -> health_ok (snd (buy_potion t q u)).
Proof.
  unfold health_bounded, health_ok, buy_potion. intros Hb h' E.
  destruct (PotionTypes t) as [info|]; [|simpl in E; specialize (Hb h' E); lia].
  destruct (Money u <? _); [simpl in E; specialize (Hb h' E); lia|].
  simpl in E. destruct (UHealth u) as [h|] eqn:Eh; simpl in E; [|congruence].
  injection E as <-. simpl. specialize (Hb h eq_refl). lia.
Qed.

Lemma take_damage_ok now d src u :
  0 <= d <= max_int64 -> health_bounded u -> health_ok (snd (take_damage now d src u)).
Proof.
  unfold health_bounded, health_ok, take_damage. intros Hd Hb h' E.
  destruct (UHealth u) as [h|] eqn:Eh; [|simpl in E; congruence].
  specialize (Hb h eq_refl). simpl in E. injection E as <-. simpl.
  rewrite (wrap64_small (HHealth h - d)) by (unfold min_int64, max_int64 in *; lia).
  destruct (Z.ltb_spec (HHealth h - d) 0); lia.
Qed.

Lemma heal_user_ok a u :
  0 <= a <= max_int64 - 2^62 -> health_bounded u -> health_ok (snd (heal_user a u)).
Proof.
  unfold health_bounded, health_ok, heal_user. intros Ha Hb h' E.
  destruct (UHealth u) as [h|] eqn:Eh; [|simpl in E; congruence].
  specialize (Hb h eq_refl). simpl in E. injection E as <-. simpl. bounds_tac.
Qed.

Lemma regenerate_ok now u : health_bounded u -> health_ok (snd (regenerate now u)).
Proof.
  unfold health_bounded, health_ok, regenerate. intros Hb h' E.
  destruct (UHealth u) as [h|] eqn:Eh; [|simpl in E; congruence].
  specialize (Hb h eq_refl).
  pose proof (wrap64_range (now - LastRegenTime h)) as Hw.
  set (w := wrap64 (now - LastRegenTime h)) in *. clearbody w.
  destruct (0 <? Z.quot w 300) eqn:E1; simpl in E;
    [|rewrite Eh in E; injection E as <-; lia].
  destruct (HHealth h <? MaxHealth h) eqn:E2; simpl in E;
    [|rewrite Eh in E; injection E as <-; lia].
  apply Z.ltb_lt in E1. apply Z.ltb_lt in E2.
  injection E as <-. simpl.
  assert (Hq : Z.quot w 300 = w / 300).
  { apply Z.quot_div_nonneg; [|lia].
    destruct (Z.ltb_spec w 0) as [Hn|]; [|lia].
    pose proof (Z.quot_pos (- w) 300 ltac:(lia) ltac:(lia)) as Hp.
    rewrite Z.quot_opp_l in Hp by lia. lia. }
  rewrite Hq in *. pose proof (Z.mul_div_le w 300 ltac:(lia)).
  unfold min_int64, max_int64 in Hw. bounds_tac.
Qed.

Lemma upgrade_max_ok u : health_bounded u -> health_ok (snd (upgrade_max u)).
Proof.
  unfold health_bounded, health_ok, upgrade_max. intros Hb h' E.
  destruct (UHealth u) as [h|] eqn:Eh; [|simpl in E; congruence].
  specialize (Hb h eq_refl).
  destruct (Money u <? _); simpl in E; [rewrite Eh in E; injection E as <-; lia|].
  injection E as <-. simpl. bounds_tac.
Qed.

Lemma GetUser_bounded now db jid :
  (forall h, stored_health db jid = Some h -> (0 <= HHealth h <= MaxHealth h /\ MaxHealth h <= 2^62)) ->
  health_bounded (fst (GetUser now db jid)).
Proof.
  unfold stored_health, health_bounded, GetUser. intros Hb h.
  destruct (Users db !! jid) as [u|]; simpl.
  - apply Hb.
  - intros E. injection E as <-. simpl. lia.
Qed.

(** The methods of [HealthSystem] keep a user's health within
    [0 <= Health <= MaxHealth] as long as no damage or healing amount is
    negative and the numbers stay far from the [int64] bounds; a user that
    [GetUser] creates starts at 100/100. *)
Theorem health_bounds_kept now op db jid :
  op_ok op ->
  (forall h, stored_health db jid = Some h -> (0 <= HHealth h <= MaxHealth h /\ MaxHealth h <= 2^62)) ->
  forall h', stored_health (run_op now op db jid) jid = Some h' ->
  0 <= HHealth h' <= MaxHealth h'.
Proof.
  intros Hop Hb. apply GetUser_bounded with (now := now) in Hb.
  destruct op; unfold run_op, UseHealthPotion, BuyHealthPotion, TakeDamage, HealUser,
    RegenerateHealth, UpgradeMaxHealth; simpl in Hop;
  match goal with
  | |- context [snd (with_user ?f now db jid)] =>
      destruct (with_user_local f now db jid) as (_ & _ & H3)
  end;
  unfold stored_health; rewrite H3.
  - apply use_potion_ok; exact Hb.
  - apply buy_potion_ok; exact Hb.
  - apply take_damage_ok; assumption.
  - apply heal_user_ok; assumption.
  - apply regenerate_ok; exact Hb.
  - apply upgrade_max_ok; exact Hb.
Qed.

(** ** The leaderboard's exchange sort *)
















Lemma PotionTypes_price t info : PotionTypes t = Some info -> 0 < Price info <= 500.
Proof.
  unfold PotionTypes.
  repeat match goal with |- context [String.eqb ?a ?b] => destruct (String.eqb a b) end;
  intros H; try discriminate; injection H as <-; simpl; lia.
Qed.


(** [TakeDamage] sets the health to [max 0 (Health - damage)] and
    [LastDamage] to now, and reports the health lost and whether the user is
    defeated (health 0) or critical (below [MaxHealth / 4]). The health is
    not capped by [MaxHealth]: a negative damage raises it beyond. *)
Theorem TakeDamage_spec now db jid d src u h :
  Users db !! jid = Some u -> UHealth u = Some h ->
  min_int64 <= HHealth h <= max_int64 -> min_int64 <= d <= max_int64 ->
  min_int64 <= HHealth h - d <= max_int64 ->
  let hv := Z.max 0 (HHealth h - d) in
  let '(r, db') := TakeDamage now db jid d src in
  r = Some (DamageTaken src (HHealth h - hv) hv (MaxHealth h)
              (if hv =? 0 then Defeated
               else if hv <? Z.quot (MaxHealth h) 4 then CriticalHealth else NoNote)) /\
  Users db' = <[jid:=set_health u (mkHealth hv (MaxHealth h) (LastRegenTime h)
                                     (HealthPotions h) now)]> (Users db) /\
  TotalUsers db' = TotalUsers db.
Proof.
  intros Hu Hh Hb Hd Hs. unfold TakeDamage. rewrite (with_user_existing _ _ _ _ _ Hu).
  unfold take_damage. rewrite Hh. rewrite (wrap64_small (HHealth h - d)) by exact Hs.
  assert (Hv : (if HHealth h - d <? 0 then 0 else HHealth h - d) = Z.max 0 (HHealth h - d))
    by (destruct (Z.ltb_spec (HHealth h - d) 0); lia).
  simpl. rewrite Hv.
  rewrite (wrap64_small (HHealth h - Z.max 0 (HHealth h - d)))
    by (unfold min_int64, max_int64 in *; lia).
  repeat split; reflexivity.
Qed.

(** [HealUser] sets the health to [min (Health + amount) MaxHealth] and
    reports the change, as long as the [int64] sums do not overflow. A
    negative amount lowers the health, also below 0, and a health above
    [MaxHealth] is brought down to [MaxHealth] (a negative heal is then
    reported). *)
Theorem HealUser_spec now db jid a u h :
  Users db !! jid = Some u -> UHealth u = Some h ->
  in_int64 (HHealth h + a) ->
  in_int64 (Z.min (HHealth h + a) (MaxHealth h) - HHealth h) ->
  let hv := Z.min (HHealth h + a) (MaxHealth h) in
  let '(r, db') := HealUser now db jid a in
  r = Some (Healed (hv - HHealth h) hv (MaxHealth h)) /\
  Users db' = <[jid:=set_health u (mkHealth hv (MaxHealth h) (LastRegenTime h)
                                     (HealthPotions h) (LastDamage h))]> (Users db) /\
  TotalUsers db' = TotalUsers db.
Proof.
  intros Hu Hh Hs Hd. unfold HealUser. rewrite (with_user_existing _ _ _ _ _ Hu).
  unfold heal_user. rewrite Hh. rewrite (wrap64_small (HHealth h + a)) by exact Hs.
  assert (Hv : (if MaxHealth h <? HHealth h + a then MaxHealth h else HHealth h + a)
               = Z.min (HHealth h + a) (MaxHealth h))
    by (destruct (Z.ltb_spec (MaxHealth h) (HHealth h + a)); lia).
  simpl. rewrite Hv.
  rewrite (wrap64_small (Z.min (HHealth h + a) (MaxHealth h) - HHealth h)) by exact Hd.
  repeat split; reflexivity.
Qed.

(** [UpgradeMaxHealth] costs [(MaxHealth - 100) * 10 + 500] coins; a user
    who cannot pay is left unchanged. Otherwise [MaxHealth] grows by 10 and
    the health becomes [min (Health + 10) (MaxHealth + 10)]: it grows by 10
    too unless it was above [MaxHealth], and then it is brought down to the
    new maximum. This holds as long as none of these [int64] operations
    overflows. *)
Theorem UpgradeMaxHealth_spec now db jid u h :
  Users db !! jid = Some u -> UHealth u = Some h ->
  in_int64 (MaxHealth h - 100) -> in_int64 ((MaxHealth h - 100) * 10) ->
  in_int64 ((MaxHealth h - 100) * 10 + 500) ->
  ((MaxHealth h - 100) * 10 + 500 <= Money u ->
   in_int64 (Money u - ((MaxHealth h - 100) * 10 + 500)) /\
   in_int64 (MaxHealth h + 10) /\ in_int64 (HHealth h + 10)) ->
  let cost := (MaxHealth h - 100) * 10 + 500 in
  let '(r, db') := UpgradeMaxHealth now db jid in
  if Money u <? cost then r = Some (NeedCoinsUpgrade cost (Money u)) /\ db' = db
  else
    let hv := Z.min (HHealth h + 10) (MaxHealth h + 10) in
    r = Some (Upgraded (MaxHealth h) (MaxHealth h + 10) hv cost (Money u - cost)) /\
    Users db' = <[jid:=mkUser (UName u) (Money u - cost)
                    (Some (mkHealth hv (MaxHealth h + 10) (LastRegenTime h)
                             (HealthPotions h) (LastDamage h)))]> (Users db) /\
    TotalUsers db' = TotalUsers db.
Proof.
  intros Hu Hh H1 H2 H3 Hpay. unfold UpgradeMaxHealth. rewrite (with_user_existing _ _ _ _ _ Hu).
  unfold upgrade_max. rewrite Hh.
  rewrite (wrap64_small (MaxHealth h - 100)) by exact H1.
  rewrite (wrap64_small ((MaxHealth h - 100) * 10)) by exact H2.
  rewrite (wrap64_small ((MaxHealth h - 100) * 10 + 500)) by exact H3.
  destruct (Z.ltb_spec (Money u) ((MaxHealth h - 100) * 10 + 500)).
  { split; [reflexivity | apply put_user_same; exact Hu]. }
  destruct (Hpay ltac:(lia)) as (Hm & Hx & Hv).
  rewrite (wrap64_small (Money u - _)) by exact Hm.
  rewrite (wrap64_small (MaxHealth h + 10)) by exact Hx.
  rewrite (wrap64_small (HHealth h + 10)) by exact Hv.
  assert (Hmin : (if MaxHealth h + 10 <? HHealth h + 10 then MaxHealth h + 10 else HHealth h + 10)
                 = Z.min (HHealth h + 10) (MaxHealth h + 10))
    by (destruct (Z.ltb_spec (MaxHealth h + 10) (HHealth h + 10)); lia).
  rewrite Hmin.
  repeat split; reflexivity.
Qed.


Lemma bar_cells_spec (i n : nat) (f : Z) :
  bar_cells i n f =
  sapp (str_repeat (Nat.min n (Z.to_nat f - i)) "█") (str_repeat (n - (Z.to_nat f - i)) "░").
Proof.
  revert i. induction n as [|n IH]; intros i; [reflexivity|].
  cbn [bar_cells]. rewrite IH.
  destruct (Z.ltb_spec (Z.of_nat i) f).
  - replace (Z.to_nat f - i)%nat with (S (Z.to_nat f - S i)) by lia.
    cbn [Nat.min str_repeat]. rewrite sapp_assoc. reflexivity.
  - replace (Z.to_nat f - i)%nat with O by lia.
    replace (Z.to_nat f - S i)%nat with O by lia.
    rewrite !Nat.min_0_r, !Nat.sub_0_r. reflexivity.
Qed.

(** [generateHealthBar] draws ten cells: [p * 10 / 100] full ones (none for a
    negative percentage, all ten from 100 on), then empty ones. *)
Theorem generateHealthBar_spec (p : Z) :
  min_int64 <= p * 10 <= max_int64 ->
  let filled := Nat.min 10 (Z.to_nat (Z.quot (p * 10) 100)) in
  generateHealthBar p = sapp (str_repeat filled "█") (str_repeat (10 - filled) "░").
Proof.
  intros Hp. unfold generateHealthBar. rewrite (wrap64_small (p * 10)) by exact Hp.
  rewrite bar_cells_spec. simpl Z.to_nat. rewrite !Nat.sub_0_r.
  f_equal. f_equal. lia.
Qed.

(** ** Witnesses, on a sample database *)

(** A user at 70/100 with two potions and 1000 coins. *)
Definition hurt_health : HealthData := mkHealth 70 100 0 2 0.
Definition hurt_user : User := mkUser "Budi" 1000 (Some hurt_health).
Definition health_db : Database := mkDB {[ "u1" := hurt_user ]} 1.


(** A user at 120/100, above the maximum. *)
Definition over_health : HealthData := mkHealth 120 100 0 0 0.
Definition over_user : User := mkUser "Tono" 1000 (Some over_health).
Definition over_db : Database := mkDB {[ "u3" := over_user ]} 1.

Lemma UseHealthPotion_spec_witness :
  (Users health_db !! "u1" = Some hurt_user /\ UHealth hurt_user = Some hurt_health /\
   min_int64 <= HHealth hurt_health <= max_int64 - 50 /\
   min_int64 < HealthPotions hurt_health <= max_int64) /\
  let '(r, db') := UseHealthPotion 0 health_db "u1" in
  if (HealthPotions hurt_health <=? 0) || (MaxHealth hurt_health <=? HHealth hurt_health) then
    r = Some (if HealthPotions hurt_health <=? 0 then NoPotions else AlreadyFull) /\ db' = health_db
  else
    let hv := Z.min (HHealth hurt_health + 50) (MaxHealth hurt_health) in
    r = Some (PotionUsed (hv - HHealth hurt_health) hv (MaxHealth hurt_health)
                (HealthPotions hurt_health - 1)) /\
    Users db' = <[ "u1" := set_health hurt_user
                   (mkHealth hv (MaxHealth hurt_health) (LastRegenTime hurt_health)
                      (HealthPotions hurt_health - 1) (LastDamage hurt_health))]> (Users health_db) /\
    TotalUsers db' = TotalUsers health_db.
Proof.
  assert (H1 : Users health_db !! "u1" = Some hurt_user) by reflexivity.
  assert (H2 : UHealth hurt_user = Some hurt_health) by reflexivity.
  assert (H3 : min_int64 <= HHealth hurt_health <= max_int64 - 50)
    by (unfold min_int64, max_int64; simpl; lia).
  assert (H4 : min_int64 < HealthPotions hurt_health <= max_int64)
    by (unfold min_int64, max_int64; simpl; lia).
  split; [tauto|].
  exact (UseHealthPotion_spec 0 health_db "u1" hurt_user hurt_health H1 H2 H3 H4).
Defined.

Lemma health_bounds_kept_witness :
  (op_ok (OpTakeDamage 30 "goblin") /\
   forall h, stored_health health_db "u1" = Some h ->
     (0 <= HHealth h <= MaxHealth h /\ MaxHealth h <= 2^62)) /\
  forall h', stored_health (run_op 0 (OpTakeDamage 30 "goblin") health_db "u1") "u1" = Some h' ->
  0 <= HHealth h' <= MaxHealth h'.
Proof.
  assert (H1 : op_ok (OpTakeDamage 30 "goblin")) by (simpl; unfold max_int64; lia).
  assert (H2 : forall h, stored_health health_db "u1" = Some h ->
                 (0 <= HHealth h <= MaxHealth h /\ MaxHealth h <= 2^62)).
  { intros h E. change (stored_health health_db "u1") with (Some hurt_health) in E.
    injection E as <-. simpl. lia. }
  split; [tauto|].
  exact (health_bounds_kept 0 (OpTakeDamage 30 "goblin") health_db "u1" H1 H2).
Defined.


(** A damage of [-50] takes the user to 120/100. *)
Lemma TakeDamage_spec_witness :
  (Users health_db !! "u1" = Some hurt_user /\ UHealth hurt_user = Some hurt_health /\
   min_int64 <= HHealth hurt_health <= max_int64 /\ min_int64 <= -50 <= max_int64 /\
   min_int64 <= HHealth hurt_health - (-50) <= max_int64) /\
  let hv := Z.max 0 (HHealth hurt_health - (-50)) in
  let '(r, db') := TakeDamage 5 health_db "u1" (-50) "spell" in
  r = Some (DamageTaken "spell" (HHealth hurt_health - hv) hv (MaxHealth hurt_health)
              (if hv =? 0 then Defeated
               else if hv <? Z.quot (MaxHealth hurt_health) 4 then CriticalHealth else NoNote)) /\
  Users db' = <[ "u1" := set_health hurt_user
                  (mkHealth hv (MaxHealth hurt_health) (LastRegenTime hurt_health)
                     (HealthPotions hurt_health) 5)]> (Users health_db) /\
  TotalUsers db' = TotalUsers health_db.
Proof.
  assert (H1 : Users health_db !! "u1" = Some hurt_user) by reflexivity.
  assert (H2 : UHealth hurt_user = Some hurt_health) by reflexivity.
  assert (H3 : min_int64 <= HHealth hurt_health <= max_int64)
    by (unfold min_int64, max_int64; simpl; lia).
  assert (H4 : min_int64 <= -50 <= max_int64) by (unfold min_int64, max_int64; lia).
  assert (H5 : min_int64 <= HHealth hurt_health - (-50) <= max_int64)
    by (unfold min_int64, max_int64; simpl; lia).
  split; [tauto|].
  exact (TakeDamage_spec 5 health_db "u1" (-50) "spell" hurt_user hurt_health H1 H2 H3 H4 H5).
Defined.

(** Healing a user at 120/100 by 5 brings them down to 100/100. *)
Lemma HealUser_spec_witness :
  (Users over_db !! "u3" = Some over_user /\ UHealth over_user = Some over_health /\
   in_int64 (HHealth over_health + 5) /\
   in_int64 (Z.min (HHealth over_health + 5) (MaxHealth over_health) - HHealth over_health)) /\
  let hv := Z.min (HHealth over_health + 5) (MaxHealth over_health) in
  let '(r, db') := HealUser 0 over_db "u3" 5 in
  r = Some (Healed (hv - HHealth over_health) hv (MaxHealth over_health)) /\
  Users db' = <[ "u3" := set_health over_user
                  (mkHealth hv (MaxHealth over_health) (LastRegenTime over_health)
                     (HealthPotions over_health) (LastDamage over_health))]> (Users over_db) /\
  TotalUsers db' = TotalUsers over_db.
Proof.
  assert (H1 : Users over_db !! "u3" = Some over_user) by reflexivity.
  assert (H2 : UHealth over_user = Some over_health) by reflexivity.
  assert (H3 : in_int64 (HHealth over_health + 5))
    by (unfold in_int64, min_int64, max_int64; simpl; lia).
  assert (H4 : in_int64 (Z.min (HHealth over_health + 5) (MaxHealth over_health)
                         - HHealth over_health))
    by (unfold in_int64, min_int64, max_int64; simpl; lia).
  split; [tauto|].
  exact (HealUser_spec 0 over_db "u3" 5 over_user over_health H1 H2 H3 H4).
Defined.

(** Upgrading a user at 120/100 with 1000 coins: 500 coins, 110/110. *)
Lemma UpgradeMaxHealth_spec_witness :
  (Users over_db !! "u3" = Some over_user /\ UHealth over_user = Some over_health /\
   in_int64 (MaxHealth over_health - 100) /\ in_int64 ((MaxHealth over_health - 100) * 10) /\
   in_int64 ((MaxHealth over_health - 100) * 10 + 500) /\
   ((MaxHealth over_health - 100) * 10 + 500 <= Money over_user ->
    in_int64 (Money over_user - ((MaxHealth over_health - 100) * 10 + 500)) /\
    in_int64 (MaxHealth over_health + 10) /\ in_int64 (HHealth over_health + 10))) /\
  let cost := (MaxHealth over_health - 100) * 10 + 500 in
  let '(r, db') := UpgradeMaxHealth 0 over_db "u3" in
  if Money over_user <? cost then r = Some (NeedCoinsUpgrade cost (Money over_user)) /\ db' = over_db
  else
    let hv := Z.min (HHealth over_health + 10) (MaxHealth over_health + 10) in
    r = Some (Upgraded (MaxHealth over_health) (MaxHealth over_health + 10) hv cost
                (Money over_user - cost)) /\
    Users db' = <[ "u3" := mkUser (UName over_user) (Money over_user - cost)
                    (Some (mkHealth hv (MaxHealth over_health + 10)
                             (LastRegenTime over_health) (HealthPotions over_health)
                             (LastDamage over_health)))]> (Users over_db) /\
    TotalUsers db' = TotalUsers over_db.
Proof.
  assert (H1 : Users over_db !! "u3" = Some over_user) by reflexivity.
  assert (H2 : UHealth over_user = Some over_health) by reflexivity.
  assert (H3 : in_int64 (MaxHealth over_health - 100))
    by (unfold in_int64, min_int64, max_int64; simpl; lia).
  assert (H4 : in_int64 ((MaxHealth over_health - 100) * 10))
    by (unfold in_int64, min_int64, max_int64; simpl; lia).
  assert (H5 : in_int64 ((MaxHealth over_health - 100) * 10 + 500))
    by (unfold in_int64, min_int64, max_int64; simpl; lia).
  assert (H6 : (MaxHealth over_health - 100) * 10 + 500 <= Money over_user ->
    in_int64 (Money over_user - ((MaxHealth over_health - 100) * 10 + 500)) /\
    in_int64 (MaxHealth over_health + 10) /\ in_int64 (HHealth over_health + 10))
    by (intros _; unfold in_int64, min_int64, max_int64; simpl; lia).
  split; [tauto|].
  exact (UpgradeMaxHealth_spec 0 over_db "u3" over_user over_health H1 H2 H3 H4 H5 H6).
Defined.


Lemma generateHealthBar_spec_witness :
  min_int64 <= 70 * 10 <= max_int64 /\
  let filled := Nat.min 10 (Z.to_nat (Z.quot (70 * 10) 100)) in
  generateHealthBar 70 = sapp (str_repeat filled "█") (str_repeat (10 - filled) "░").
Proof.
  assert (H : min_int64 <= 70 * 10 <= max_int64) by (unfold min_int64, max_int64; lia).
  split; [exact H|].
  exact (generateHealthBar_spec 70 H).
Defined.

End HealthFacts.
